(** * CraftTech landing page: the scroll reveal hook and the contact form

    A shallow embedding of the logic of [src/App.tsx] and of its sibling
    variant [src/unnamed/part_000]:

    - [useScrollAnimation], the hook deciding when a wrapped element starts
      its one-shot entrance animation, with its three code paths
      (IntersectionObserver on the web, [setTimeout] when no scroll value is
      passed, scroll listener otherwise);
    - [StaggeredScrollAnimation], which hands [index * itemDelay] to its
      children;
    - [handleSubmit] of the contact form.

    Conventions.  A JavaScript [number] is an exact rational ([Q]): rounding,
    [NaN] and the infinities of IEEE doubles are outside the model.  Time is
    a rational number of milliseconds.  The React runtime is modelled at the
    granularity of host events: an event runs the callback it is addressed
    to, then React re-renders and re-runs the effect while the dependency
    list [[scrollY, layoutY, isVisible, delay]] differs from the one the
    installed effect was created with.  The props [delay] and [scrollY] of
    one hook instance do not change during its life. *)

From Stdlib Require Import QArith Lqa Bool List String PeanoNat Lia.
Import ListNotations.
Local Open Scope Q_scope.

(** ** Host side: platform, animated values, events *)

(** [Platform.OS === "web"] or not. *)
Inductive PlatformOS : Set := web | native.

(** What the hook reads from its surroundings and never changes:
    the platform and whether [viewRef.current] is attached to a view. *)
Record Env : Set := mkEnv {
  OS : PlatformOS;
  viewRef_current : bool
}.

(** The arguments of [useScrollAnimation(delay, scrollY?)]; [scrollY] only
    records whether an [Animated.Value] was passed. *)
Record Props : Set := mkProps {
  delay : Q;
  scrollY : bool
}.

(** One call [Animated.timing(animValue, {toValue: 1, duration: 800, delay,
    easing}).start()]: the instant of the call, the value the animation
    leaves from, and its delay. *)
Record Timing : Set := mkTiming {
  startedAt : Q;
  fromValue : Q;
  timingDelay : Q
}.

Definition toValue : Q := 1.
Definition duration : Q := 800.

(** [a < b], [Math.max] and [Math.min] on numbers. *)
Definition Qltb (a b : Q) : bool := negb (Qle_bool b a).

Definition Math_max (a b : Q) : Q := if Qle_bool a b then b else a.

Definition Math_min (a b : Q) : Q := if Qle_bool a b then a else b.

(** [Easing.cubic] and [Easing.out]. *)
Definition cubic (t : Q) : Q := t * t * t.
Definition Easing_out (easing : Q -> Q) (t : Q) : Q := 1 - easing (1 - t).

(** Value of a timing animation at clock [t]: it rests on [fromValue]
    during the delay, follows the easing curve for [duration] milliseconds
    and stays on its end value afterwards.  The delay is waited for with a
    timer, so a negative delay counts as none: the animation then starts
    at the instant of the call. *)
Definition timing_value (a : Timing) (t : Q) : Q :=
  let elapsed := t - startedAt a - Math_max 0 (timingDelay a) in
  if Qle_bool elapsed 0 then fromValue a
  else if Qle_bool duration elapsed
       then fromValue a + Easing_out cubic 1 * (toValue - fromValue a)
       else fromValue a
            + Easing_out cubic (elapsed / duration) * (toValue - fromValue a).

(** The values of the two [useState] cells as one render sees them; the
    closures created by that render ([animateIn], [checkAndAnimate], the
    observer and timer callbacks) read these, not the live cells. *)
Record Render : Set := mkRender {
  r_isVisible : bool;
  r_layoutY : option Q
}.

(** What the last run of the effect left installed. *)
Inductive Effect : Set :=
| Idle                                      (* nothing pending *)
| Observing (observed : bool)               (* IntersectionObserver *)
| TimerPending (due : Q)                    (* setTimeout(..., 80) *)
| Listening (screenHeight buffer : Q).      (* scrollY.addListener *)

(** One mounted instance of the hook together with the host values it
    reads: the clock and [Dimensions.get("window").height]. *)
Record State : Set := mkState {
  isVisible : bool;
  layoutY : option Q;
  animValue : list Timing;     (* timings started on animValue, newest first *)
  closure : Render;            (* render that created the installed effect *)
  effect : Effect;
  now : Q;
  windowHeight : Q
}.

Definition set_isVisible (b : bool) (s : State) : State :=
  mkState b (layoutY s) (animValue s) (closure s) (effect s) (now s)
          (windowHeight s).
Definition set_layoutY (y : option Q) (s : State) : State :=
  mkState (isVisible s) y (animValue s) (closure s) (effect s) (now s)
          (windowHeight s).
Definition set_animValue (l : list Timing) (s : State) : State :=
  mkState (isVisible s) (layoutY s) l (closure s) (effect s) (now s)
          (windowHeight s).
Definition set_closure (r : Render) (s : State) : State :=
  mkState (isVisible s) (layoutY s) (animValue s) r (effect s) (now s)
          (windowHeight s).
Definition set_effect (e : Effect) (s : State) : State :=
  mkState (isVisible s) (layoutY s) (animValue s) (closure s) e (now s)
          (windowHeight s).
Definition set_now (t : Q) (s : State) : State :=
  mkState (isVisible s) (layoutY s) (animValue s) (closure s) (effect s) t
          (windowHeight s).
Definition set_windowHeight (h : Q) (s : State) : State :=
  mkState (isVisible s) (layoutY s) (animValue s) (closure s) (effect s)
          (now s) h.

(** Current number held by [animValue] at clock [t]: 0 until a timing is
    started, then the value of the timing started last (starting a timing
    on a value replaces the one that was running). *)
Definition animValue_at (s : State) (t : Q) : Q :=
  match animValue s with
  | [] => 0
  | a :: _ => timing_value a t
  end.

(** [Object.is] on the values of the two state cells. *)
Definition same_layoutY (a b : option Q) : bool :=
  match a, b with
  | None, None => true
  | Some x, Some y => Qeq_bool x y
  | _, _ => false
  end.

Definition same_deps (r r' : Render) : bool :=
  Bool.eqb (r_isVisible r) (r_isVisible r')
  && same_layoutY (r_layoutY r) (r_layoutY r').

Definition current (s : State) : Render :=
  mkRender (isVisible s) (layoutY s).

(** The computed style the hook returns. *)
Record Style : Set := mkStyle {
  opacity : Q;
  translateY : Q
}.

(** [value.interpolate({inputRange: [inMin, inMax], outputRange: [outMin,
    outMax]})] with the default linear easing and extension outside the
    range. *)
Definition interpolate (inMin inMax outMin outMax : Q) (input : Q) : Q :=
  (input - inMin) / (inMax - inMin) * (outMax - outMin) + outMin.

(** Events the host delivers to one hook instance. *)
Inductive Event : Set :=
| Layout (y : Q)                  (* onLayout with e.nativeEvent.layout.y *)
| Scroll (value : Q)              (* scrollY.setValue(value) notifies listeners *)
| Intersect (entries : list bool) (* observer callback; isIntersecting of each entry *)
| TimerFires                      (* the pending setTimeout comes due *)
| Advance (dt : Q)                (* dt milliseconds pass *)
| Resize (height : Q).            (* the window height changes *)

(** The code of one variant of the hook, as the runtime below calls it. *)
Record HookCode : Type := mkHookCode {
  hc_onLayout : Q -> State -> State;
  hc_observerCallback : Props -> Render -> list bool -> State -> State;
  hc_timerCallback : Props -> Render -> State -> State;
  hc_listener : Props -> Render -> Q -> Q -> Q -> State -> State;
  hc_effect : Env -> Props -> Render -> State -> State;
  hc_animationStyle : Q -> Style
}.

(** [items.map((item, index) => f(item, index))], counting from [index]. *)
Fixpoint map_index {A B : Type} (f : A -> nat -> B) (index : nat)
    (items : list A) : list B :=
  match items with
  | [] => []
  | item :: rest => f item index :: map_index f (S index) rest
  end.

(** React's state setters: setting a cell to the value it holds (by
    [Object.is]) leaves the state as it is. *)
Definition setIsVisible (b : bool) (s : State) : State :=
  if Bool.eqb (isVisible s) b then s else set_isVisible b s.

Definition setLayoutY (y : option Q) (s : State) : State :=
  if same_layoutY (layoutY s) y then s else set_layoutY y s.

(** [Animated.timing(animValue, {toValue: 1, duration: 800, delay, ...})
    .start()] at the current clock. *)
Definition Animated_timing_start (d : Q) (s : State) : State :=
  set_animValue (mkTiming (now s) (animValue_at s (now s)) d :: animValue s) s.

(** [observer.disconnect()], [clearTimeout(t)] and
    [scrollY.removeListener(id)]: each removes what was installed by the
    effect run it belongs to and does nothing otherwise. *)
Definition observer_disconnect (s : State) : State :=
  match effect s with Observing _ => set_effect Idle s | _ => s end.

Definition clearTimeout (s : State) : State :=
  match effect s with TimerPending _ => set_effect Idle s | _ => s end.

Definition removeListener (s : State) : State :=
  match effect s with Listening _ _ => set_effect Idle s | _ => s end.

(** The cleanup function the installed effect returned. *)
Definition cleanup (s : State) : State :=
  match effect s with
  | Idle => s
  | Observing _ => observer_disconnect s
  | TimerPending _ => clearTimeout s
  | Listening _ _ => removeListener s
  end.

(** ** The hook of [src/App.tsx] *)

Module App.

(** [animateIn] as created by the render [r]. *)
Definition animateIn (p : Props) (r : Render) (s : State) : State :=
  if r_isVisible r then s
  else Animated_timing_start (delay p) (setIsVisible true s).

Definition onLayout (y : Q) (s : State) : State :=
  setLayoutY (Some y) s.

(** The callback given to [new IntersectionObserver]: every intersecting
    entry calls [animateIn] and disconnects the observer. *)
Definition observerCallback (p : Props) (r : Render) (entries : list bool)
    (s : State) : State :=
  fold_left
    (fun s (isIntersecting : bool) =>
       if isIntersecting then observer_disconnect (animateIn p r s) else s)
    entries s.

(** The callback given to [setTimeout]. *)
Definition timerCallback (p : Props) (r : Render) (s : State) : State :=
  animateIn p r s.

Definition checkAndAnimate (p : Props) (r : Render) (screenHeight buffer : Q)
    (scrollValue : Q) (s : State) : State :=
  if r_isVisible r then s
  else match r_layoutY r with
       | None => s
       | Some layoutY =>
           let visibleBottom := scrollValue + screenHeight in
           if Qle_bool (layoutY + buffer) visibleBottom
           then animateIn p r s
           else s
       end.

(** The body of [useEffect], run for the render [r]. *)
Definition effect_body (e : Env) (p : Props) (r : Render) (s : State)
    : State :=
  match OS e with
  | web =>
      if r_isVisible r then s
      else set_effect (Observing (viewRef_current e)) s
  | native =>
      if negb (scrollY p) then set_effect (TimerPending (now s + 80)) s
      else if r_isVisible r then s
      else
        let screenHeight := windowHeight s in
        let buffer := screenHeight * 0.1 in
        let s1 := match r_layoutY r with
                  | Some _ => checkAndAnimate p r screenHeight buffer 0 s
                  | None => s
                  end in
        set_effect (Listening screenHeight buffer) s1
  end.

Definition animationStyle (animValue : Q) : Style :=
  mkStyle animValue (interpolate 0 1 60 0 animValue).

Definition useScrollAnimation : HookCode :=
  mkHookCode onLayout observerCallback timerCallback checkAndAnimate
             effect_body animationStyle.

(** [ScrollAnimatedView]: [delay] defaults to 0. *)
Definition ScrollAnimatedView (delay : option Q) (scrollY : bool) : Props :=
  mkProps (match delay with Some d => d | None => 0 end) scrollY.

(** [StaggeredScrollAnimation]: one [ScrollAnimatedView] per child, in
    order, with [delay = index * itemDelay]; [itemDelay] defaults to 100. *)
Definition StaggeredScrollAnimation {A : Type} (itemDelay : option Q)
    (scrollY : bool) (children : list A) : list (Props * A) :=
  let itemDelay := match itemDelay with Some d => d | None => 100 end in
  map_index
    (fun child index =>
       (ScrollAnimatedView (Some (inject_Z (Z.of_nat index) * itemDelay))
                           scrollY,
        child))
    O children.

(** The contact form. *)
Record Form : Set := mkForm {
  name : string;
  email : string;
  company : string;
  budget : string;
  message : string
}.

(** [!value] on a string: only the empty string is falsy. *)
Definition not_ (value : string) : bool := String.eqb value EmptyString.

(** [handleSubmit]: the alert shown (title, text) and the form afterwards. *)
Definition handleSubmit (form : Form) : (string * string) * Form :=
  if not_ (email form) || not_ (message form)
  then (("Missing info"%string,
         "Please add at least your email and project details."%string),
        form)
  else (("Brief sent"%string,
         "We'll review your project and reply within one business day."%string),
        mkForm EmptyString EmptyString EmptyString EmptyString EmptyString).

End App.

(** ** The hook of [src/unnamed/part_000] *)

Module Part000.

Definition animateIn (p : Props) (r : Render) (s : State) : State :=
  if r_isVisible r then s (* only once *)
  else Animated_timing_start (delay p) (setIsVisible true s).

(** Called from the [Animated.View]. *)
Definition onLayout (y : Q) (s : State) : State :=
  setLayoutY (Some y) s.

Definition observerCallback (p : Props) (r : Render) (entries : list bool)
    (s : State) : State :=
  fold_left
    (fun s (isIntersecting : bool) =>
       if isIntersecting then observer_disconnect (animateIn p r s) else s)
    entries s.

Definition timerCallback (p : Props) (r : Render) (s : State) : State :=
  animateIn p r s.

Definition checkAndAnimate (p : Props) (r : Render) (screenHeight buffer : Q)
    (scrollValue : Q) (s : State) : State :=
  if r_isVisible r then s
  else match r_layoutY r with
       | None => s
       | Some layoutY =>
           let visibleBottom := scrollValue + screenHeight in
           if Qle_bool (layoutY + buffer) visibleBottom
           then animateIn p r s (* within viewport + small buffer *)
           else s
       end.

Definition effect_body (e : Env) (p : Props) (r : Render) (s : State)
    : State :=
  match OS e with
  | web => (* keep IntersectionObserver behaviour *)
      if r_isVisible r then s
      else set_effect (Observing (viewRef_current e)) s
  | native => (* scroll-based trigger *)
      if negb (scrollY p)
      then (* fallback: just animate shortly after mount *)
        set_effect (TimerPending (now s + 80)) s
      else if r_isVisible r then s
      else
        let screenHeight := windowHeight s in
        let buffer := screenHeight * 0.1 in
        (* initial check *)
        let s1 := match r_layoutY r with
                  | Some _ => checkAndAnimate p r screenHeight buffer 0 s
                  | None => s
                  end in
        set_effect (Listening screenHeight buffer) s1
  end.

Definition animationStyle (animValue : Q) : Style :=
  mkStyle animValue (interpolate 0 1 60 0 animValue).

Definition useScrollAnimation : HookCode :=
  mkHookCode onLayout observerCallback timerCallback checkAndAnimate
             effect_body animationStyle.

Record Form : Set := mkForm {
  name : string;
  email : string;
  company : string;
  budget : string;
  message : string
}.

Definition not_ (value : string) : bool := String.eqb value EmptyString.

Definition handleSubmit (form : Form) : (string * string) * Form :=
  if not_ (email form) || not_ (message form)
  then (("Missing info"%string,
         "Please add at least your email and project details."%string),
        form)
  else (("Brief sent"%string,
         "We'll review your project and reply within one business day."%string),
        mkForm EmptyString EmptyString EmptyString EmptyString EmptyString).

End Part000.

(** ** The runtime: delivering events and committing renders *)

Section Runtime.

Variable hc : HookCode.
Variable e : Env.
Variable p : Props.

(** Run the callback the event is addressed to, if it is installed. *)
Definition dispatch (s : State) (ev : Event) : State :=
  match ev with
  | Layout y => hc_onLayout hc y s
  | Scroll value =>
      match effect s with
      | Listening screenHeight buffer =>
          hc_listener hc p (closure s) screenHeight buffer value s
      | _ => s
      end
  | Intersect entries =>
      match effect s with
      | Observing true => hc_observerCallback hc p (closure s) entries s
      | _ => s
      end
  | TimerFires =>
      match effect s with
      | TimerPending due =>
          if Qle_bool due (now s)
          then hc_timerCallback hc p (closure s) (set_effect Idle s)
          else s
      | _ => s
      end
  | Advance dt => if Qle_bool 0 dt then set_now (now s + dt) s else s
  | Resize height => set_windowHeight height s
  end.

(** Re-render while the dependencies differ from those of the installed
    effect: run its cleanup, then the effect body of the new render (which
    may itself set state). *)
Fixpoint commit (fuel : nat) (s : State) : State :=
  if same_deps (closure s) (current s) then s
  else match fuel with
       | O => s
       | S fuel' =>
           let r := current s in
           commit fuel' (hc_effect hc e p r (set_closure r (cleanup s)))
       end.

(** One event.  Two passes of the loop are enough: from a mounted state
    the loop has come to rest by then and more fuel changes nothing
    (lemma [step_fuel] below). *)
Definition step (s : State) (ev : Event) : State :=
  commit 2 (dispatch s ev).

Definition run (s : State) (evs : list Event) : State :=
  fold_left step evs s.

(** Mounting at clock [t] with window height [h]: first render, first run
    of the effect. *)
Definition mount (t h : Q) : State :=
  let r := mkRender false None in
  commit 2 (hc_effect hc e p r (mkState false None [] r Idle t h)).

(** Unmounting runs the cleanup of the installed effect. *)
Definition unmount (s : State) : State := cleanup s.

(** The style the hook returns, read at clock [t]. *)
Definition style_at (s : State) (t : Q) : Style :=
  hc_animationStyle hc (animValue_at s t).

End Runtime.

(** ** Traces, groups and invariants *)

(** The hook under study is the one of [src/App.tsx]; the variant is
    compared with it at the end. *)
Abbreviation hook := App.useScrollAnimation.

(** The [isVisible] flag before and after each event of a run. *)
Fixpoint visibility (hc : HookCode) (e : Env) (p : Props) (s : State)
    (evs : list Event) : list bool :=
  isVisible s ::
  match evs with
  | [] => []
  | ev :: evs' => visibility hc e p (step hc e p s ev) evs'
  end.

(** Number of changes from [false] to [true], and from [true] to [false],
    between neighbours of a list. *)
Fixpoint rises (l : list bool) : nat :=
  match l with
  | [] => O
  | a :: tl =>
      match tl with
      | [] => O
      | b :: _ => ((if negb a && b then 1 else 0) + rises tl)%nat
      end
  end.

Fixpoint falls (l : list bool) : nat :=
  match l with
  | [] => O
  | a :: tl =>
      match tl with
      | [] => O
      | b :: _ => ((if a && negb b then 1 else 0) + falls tl)%nat
      end
  end.

(** A group of [ScrollAnimatedView]s under one parent: every child runs its
    own instance of the hook.  A host event (scroll, clock, resize) reaches
    every child, a child event (layout, observer, timer) only its own. *)
Inductive GroupEvent : Set :=
| Host (ev : Event)
| Child (index : nat) (ev : Event).

Definition addressed (index : nat) (gev : GroupEvent) : option Event :=
  match gev with
  | Host ev => Some ev
  | Child i ev => if Nat.eqb i index then Some ev else None
  end.

Definition group_step (hc : HookCode) (e : Env) (g : list (Props * State))
    (gev : GroupEvent) : list (Props * State) :=
  map_index
    (fun (ps : Props * State) index =>
       match addressed index gev with
       | Some ev => (fst ps, step hc e (fst ps) (snd ps) ev)
       | None => ps
       end)
    O g.

Definition group_run (hc : HookCode) (e : Env) (g : list (Props * State))
    (gevs : list GroupEvent) : list (Props * State) :=
  fold_left (group_step hc e) gevs g.

Definition group_mount {A : Type} (hc : HookCode) (e : Env) (t h : Q)
    (children : list (Props * A)) : list (Props * State) :=
  map (fun c => (fst c, mount hc e (fst c) t h)) children.

(** The events of a group run that reach the child at [index]. *)
Fixpoint events_of (index : nat) (gevs : list GroupEvent) : list Event :=
  match gevs with
  | [] => []
  | gev :: rest =>
      match addressed index gev with
      | Some ev => ev :: events_of index rest
      | None => events_of index rest
      end
  end.

(** The closures of the installed effect see the live state. *)
Definition settled (s : State) : Prop := closure s = current s.

(** What is installed matches the code path of the platform. *)
Definition installed (e : Env) (p : Props) (s : State) : Prop :=
  match OS e, scrollY p with
  | web, _ =>
      effect s = if isVisible s then Idle else Observing (viewRef_current e)
  | native, false =>
      (exists due, effect s = TimerPending due /\ due <= now s + 80)
      \/ (effect s = Idle /\ isVisible s = true)
  | native, true =>
      if isVisible s then effect s = Idle /\ layoutY s <> None
      else exists H, effect s = Listening H (H * 0.1)
  end.

(** A timing has been started exactly when the target is visible, and on
    the native paths at most one. *)
Definition started (e : Env) (s : State) : Prop :=
  (isVisible s = false -> animValue s = [])
  /\ (isVisible s = true -> animValue s <> [])
  /\ (OS e = native -> (List.length (animValue s) <= 1)%nat).

Definition Inv (e : Env) (p : Props) (s : State) : Prop :=
  settled s /\ installed e p s /\ started e s.

(** One pass of the commit loop: cleanup, then the effect of the current
    render. *)
Definition refresh (e : Env) (p : Props) (s : State) : State :=
  hc_effect hook e p (current s) (set_closure (current s) (cleanup s)).

(** The observer callback met an intersecting entry. *)
Definition observer_fired (s s' : State) : Prop :=
  isVisible s' = true /\ animValue s' <> [] /\ effect s' = Idle
  /\ layoutY s' = layoutY s /\ closure s' = closure s
  /\ now s' = now s /\ windowHeight s' = windowHeight s.

Definition is_Resize (ev : Event) : bool :=
  match ev with Resize _ => true | _ => false end.

(** A run during which the window keeps its height. *)
Definition fixed_window (evs : list Event) : bool :=
  forallb (fun ev => negb (is_Resize ev)) evs.

(** The window has height [h] and so had it when the listener was added. *)
Definition sized (h : Q) (s : State) : Prop :=
  windowHeight s = h /\ forall H b, effect s = Listening H b -> H = h.

(** Mounted at [t0] with no scroll value: nothing is due or started
    before [t0 + 80]. *)
Definition timed (t0 : Q) (s : State) : Prop :=
  t0 <= now s
  /\ (forall due, effect s = TimerPending due -> t0 + 80 <= due)
  /\ Forall (fun a => t0 + 80 <= startedAt a) (animValue s).

(** ** The rest of the page: layout helpers, carousel, navigation, form *)

(** A group event that is no resize of the window. *)
Definition no_resize (gev : GroupEvent) : bool :=
  match gev with Host ev | Child _ ev => negb (is_Resize ev) end.

(** Events that reach the hook only through a trigger its effect installs:
    the scroll listener, the observer callback, the timer. *)
Definition is_trigger (ev : Event) : bool :=
  match ev with
  | Scroll _ | Intersect _ | TimerFires => true
  | _ => false
  end.

Definition is_Layout (ev : Event) : bool :=
  match ev with Layout _ => true | _ => false end.

(** Number of intersecting entries of an observer callback. *)
Definition intersecting (entries : list bool) : nat :=
  List.length (filter (fun b : bool => b) entries).

(** The page of [src/App.tsx]. *)
Module Page.

Definition MIN_WIDTH : Q := 320.
Definition MAX_WIDTH : Q := 1280.
Definition MOBILE_BREAKPOINT : Q := 768.
Definition TABLET_BREAKPOINT : Q := 1024.

(** [scaleFont]; the computed [scaleFactor] is not used by the code. *)
Definition scaleFont (size width : Q) : Q :=
  let baseWidth := 375 in
  let scaleFactor :=
    Math_min (Math_max width MIN_WIDTH) MAX_WIDTH / baseWidth in
  if Qltb width 380 then Math_max (size * 0.85) 10
  else if Qltb width 480 then size * 0.95
  else if Qltb width MOBILE_BREAKPOINT then size
  else if Qltb width TABLET_BREAKPOINT then size * 1.1
  else size * 1.2.

Definition responsiveValue {T : Type} (mobile tablet desktop : T)
    (width : Q) : T :=
  if Qltb width MOBILE_BREAKPOINT then mobile
  else if Qltb width TABLET_BREAKPOINT then tablet
  else desktop.

Definition isMobile (width : Q) : bool := Qltb width MOBILE_BREAKPOINT.

Definition isTablet (width : Q) : bool :=
  Qle_bool MOBILE_BREAKPOINT width && Qltb width TABLET_BREAKPOINT.

Definition isDesktop (width : Q) : bool := Qle_bool TABLET_BREAKPOINT width.

Definition sectionPadding (width : Q) : Q := responsiveValue 48 64 96 width.

Definition headerHeight (width : Q) : Q := responsiveValue 60 70 80 width.

Definition heroHeight (width height : Q) : Q :=
  responsiveValue
    (Math_min (height * 0.75) 520)
    (Math_min (height * 0.85) 600)
    (Math_min (height * 0.9) 700)
    width.

(** The [minHeight] given to the hero view beside [height: heroHeight]. *)
Definition hero_minHeight (width height : Q) : Q :=
  Math_max (heroHeight width height) 400.

(** The header renders the centre navigation (with its dropdowns) on
    tablet and desktop, the burger button otherwise, and the mobile menu
    when [isMobile && navOpen]. *)
Definition shows_centerNav (width : Q) : bool :=
  isTablet width || isDesktop width.

Definition shows_burger (width : Q) : bool :=
  negb (isTablet width || isDesktop width).

Definition shows_mobileNav (width : Q) (navOpen : bool) : bool :=
  isMobile width && navOpen.

Inductive SectionKey : Set :=
| hero | services | process | work | testimonials | contact.

Definition SectionKey_eqb (a b : SectionKey) : bool :=
  match a, b with
  | hero, hero | services, services | process, process | work, work
  | testimonials, testimonials | contact, contact => true
  | _, _ => false
  end.

(** [Partial<Record<SectionKey, number>>]. *)
Definition SectionPositions : Type := SectionKey -> option Q.

Definition no_positions : SectionPositions := fun _ => None.

(** [handleSectionLayout(key)(event)]: [{...prev, [key]: y}]. *)
Definition handleSectionLayout (key : SectionKey) (y : Q)
    (prev : SectionPositions) : SectionPositions :=
  fun k => if SectionKey_eqb k key then Some y else prev k.

(** The header's menus. *)
Record Nav : Set := mkNav {
  navOpen : bool;
  openDropdown : option string
}.

(** [scrollToSection]: the offset handed to [scrollTo], if the scroll view
    is attached, and the menus afterwards. *)
Definition scrollToSection (key : SectionKey) (width : Q)
    (scrollRef_current : bool) (sectionPositions : SectionPositions)
    (nav : Nav) : option Q * Nav :=
  let y := match sectionPositions key with Some y => y | None => 0 end in
  ((if scrollRef_current then Some (y - headerHeight width * 0.8) else None),
   mkNav false None).

(** The burger button and a long press on a centre item. *)
Definition toggleNav (nav : Nav) : Nav :=
  mkNav (negb (navOpen nav)) (openDropdown nav).

Definition longPress (key : string) (nav : Nav) : Nav :=
  mkNav (navOpen nav)
        (match openDropdown nav with
         | Some k => if String.eqb k key then None else Some key
         | None => Some key
         end).

(** The hero carousel.  [HERO_SLIDES] by slide id; the updaters passed to
    [setActiveSlideIndex], over the number of slides. *)
Definition HERO_SLIDES : list string :=
  ["crafting-premium"; "future-architecture"; "product-squad"]%string.

Definition handleNextSlide (slides : list string) (prev : Z) : Z :=
  Z.rem (prev + 1) (Z.of_nat (List.length slides)).

Definition handlePrevSlide (slides : list string) (prev : Z) : Z :=
  if Z.eqb prev 0 then Z.of_nat (List.length slides) - 1 else prev - 1.

Inductive SlideEvent : Set :=
| Autoplay                   (* the 8000 ms interval *)
| PressPrev
| PressNext
| PressDot (index : nat).    (* a dot of [HERO_SLIDES.map((_, index) => ...)] *)

Definition slide_event (slides : list string) (activeSlideIndex : Z)
    (ev : SlideEvent) : Z :=
  match ev with
  | Autoplay => handleNextSlide slides activeSlideIndex
  | PressPrev => handlePrevSlide slides activeSlideIndex
  | PressNext => handleNextSlide slides activeSlideIndex
  | PressDot index => Z.of_nat index
  end.

(** A dot exists only for an index of the list. *)
Definition dot_exists (slides : list string) (ev : SlideEvent) : bool :=
  match ev with
  | PressDot index => Nat.ltb index (List.length slides)
  | _ => true
  end.

Definition currentSlide (slides : list string) (activeSlideIndex : Z)
    : option string :=
  if Z.ltb activeSlideIndex 0 then None
  else nth_error slides (Z.to_nat activeSlideIndex).

(** The contact form's fields. *)
Inductive Field : Set :=
| f_name | f_email | f_company | f_budget | f_message.

Definition field (f : Field) (form : App.Form) : string :=
  match f with
  | f_name => App.name form
  | f_email => App.email form
  | f_company => App.company form
  | f_budget => App.budget form
  | f_message => App.message form
  end.

(** [handleFormChange]: [{...prev, [field]: value}]. *)
Definition handleFormChange (f : Field) (value : string) (prev : App.Form)
    : App.Form :=
  match f with
  | f_name =>
      App.mkForm value (App.email prev) (App.company prev) (App.budget prev)
                 (App.message prev)
  | f_email =>
      App.mkForm (App.name prev) value (App.company prev) (App.budget prev)
                 (App.message prev)
  | f_company =>
      App.mkForm (App.name prev) (App.email prev) value (App.budget prev)
                 (App.message prev)
  | f_budget =>
      App.mkForm (App.name prev) (App.email prev) (App.company prev) value
                 (App.message prev)
  | f_message =>
      App.mkForm (App.name prev) (App.email prev) (App.company prev)
                 (App.budget prev) value
  end.

(** The portfolio. *)
Inductive PortfolioCategory : Set :=
| cat_all | cat_web | cat_mobile | cat_ecommerce.

Definition PortfolioCategory_eqb (a b : PortfolioCategory) : bool :=
  match a, b with
  | cat_all, cat_all | cat_web, cat_web | cat_mobile, cat_mobile
  | cat_ecommerce, cat_ecommerce => true
  | _, _ => false
  end.

Record PortfolioItem : Set := mkPortfolioItem {
  id : Z;
  title : string;
  type_ : string;
  category : PortfolioCategory;
  description : string;
  metrics : list string;
  img : string
}.

Definition PORTFOLIO_ITEMS : list PortfolioItem :=
  [ mkPortfolioItem 1 "Fintech SaaS Dashboard" "Web App" cat_web
      "Analytics-heavy admin experience with secure multi-tenant access and real-time KPIs."
      ["+38% retention"; "SOC2-ready"; "Enterprise grade"]%string
      "https://images.unsplash.com/photo-1551288049-bebda4e38f71?w=800";
    mkPortfolioItem 2 "Telehealth Mobile Platform" "Mobile App" cat_mobile
      "Virtual care, scheduling, and secure messaging for a US-based healthcare startup."
      ["iOS & Android"; "50k+ sessions"; "HIPAA compliant"]%string
      "https://images.unsplash.com/photo-1582719478250-c89cae4dc85b?auto=format&fit=crop&w=1000&q=80";
    mkPortfolioItem 3 "Headless Commerce Experience" "E-Commerce"
      cat_ecommerce
      "Conversion-optimized storefront with a custom product configurator and fast checkout."
      ["3.9x ROI"; "<1s page loads"; "PWA ready"]%string
      "https://images.unsplash.com/photo-1556742049-0cfed4f6a45d?w=800" ].

(** [filteredPortfolio], over the list of items. *)
Definition filteredPortfolio (portfolioFilter : PortfolioCategory)
    (items : list PortfolioItem) : list PortfolioItem :=
  if PortfolioCategory_eqb portfolioFilter cat_all then items
  else filter
         (fun i => PortfolioCategory_eqb (category i) portfolioFilter)
         items.

(** [handleScroll]: the [scrolled] flag and the notification of every
    listener of [scrollY]. *)
Definition handleScroll (e : Env) (y : Q) (views : list (Props * State))
    : bool * list (Props * State) :=
  (Qltb 100 y, group_step App.useScrollAnimation e views (Host (Scroll y))).

End Page.

(** The page of [src/unnamed/part_000], where it differs. *)
Module Page000.

Definition scaleFont (size width : Q) : Q :=
  let baseWidth := 375 in
  let scaleFactor := width / baseWidth in
  if Qltb width 380 then Math_max (size * 0.82) 10
  else if Qltb width 480 then size * 0.92
  else if Qltb width 768 then size * 1.0
  else if Qltb width 1024 then size * 1.12
  else if Qltb width 1280 then size * 1.2
  else size * 1.3.

Definition isMobile (width : Q) : bool := Qle_bool width 768.

Definition isTablet (width : Q) : bool :=
  Qltb 768 width && Qltb width 1024.

Definition isDesktop (width : Q) : bool := Qle_bool 1024 width.

Definition sectionPadding (width : Q) : Q :=
  if isDesktop width then 96 else if isTablet width then 64 else 48.

Definition navPadding (width : Q) : Q :=
  if isDesktop width then 40 else if isTablet width then 24 else 16.

Definition shows_burger (width : Q) : bool :=
  negb (isTablet width || isDesktop width).

(** [scrollToSection] with its fixed offset of 80. *)
Definition scrollToSection (key : Page.SectionKey)
    (scrollRef_current : bool) (sectionPositions : Page.SectionPositions)
    (nav : Page.Nav) : option Q * Page.Nav :=
  let y := match sectionPositions key with Some y => y | None => 0 end in
  ((if scrollRef_current then Some (y - 80) else None),
   Page.mkNav false None).

End Page000.

(** In a window of height [H], a target that is measured and still hidden
    has failed the initial check against offset 0. *)
Definition unrevealed (H : Q) (s : State) : Prop :=
  forall y, isVisible s = false -> layoutY s = Some y ->
  Qle_bool (y + H * 0.1) (0 + H) = false.

(** ** Proofs *)
#[local] Arguments Qle_bool : simpl never.
#[local] Arguments Qeq_bool : simpl never.
#[local] Arguments Qplus : simpl never.
#[local] Arguments Qmult : simpl never.
#[local] Arguments Qminus : simpl never.
#[local] Arguments Qdiv : simpl never.
#[local] Arguments animValue_at : simpl never.

(** Unfold the code of the hook, keeping the record setters folded. *)
Ltac hook_unfold :=
  unfold step, dispatch, mount, unmount, App.useScrollAnimation, App.onLayout,
    App.timerCallback, App.checkAndAnimate, App.animateIn, App.effect_body,
    setLayoutY, setIsVisible, Animated_timing_start, cleanup,
    observer_disconnect, clearTimeout, removeListener, current, same_deps.

(** Case split on the next comparison the evaluation is stuck on. *)
Ltac qcase :=
  match goal with
  | |- context [Qle_bool ?a ?b] => destruct (Qle_bool a b) eqn:?
  | |- context [Qeq_bool ?a ?b] => destruct (Qeq_bool a b) eqn:?
  end.

Ltac exec := cbn; repeat (qcase; cbn).

Ltac fin :=
  intros;
  repeat match goal with H : _ \/ _ |- _ => destruct H end;
  try congruence;
  try (left; eexists; split; [reflexivity | lra]);
  eauto.

Lemma same_layoutY_refl (y : option Q) : same_layoutY y y = true.
Proof. destruct y as [y|]; cbn; [apply Qeq_bool_refl | reflexivity]. Qed.

Lemma same_deps_refl (r : Render) : same_deps r r = true.
Proof.
  unfold same_deps. now rewrite Bool.eqb_reflx, same_layoutY_refl.
Qed.

Lemma commit_settled hc e p n s :
  settled s -> commit hc e p n s = s.
Proof.
  unfold settled. intros H.
  destruct n; cbn; rewrite H, same_deps_refl; reflexivity.
Qed.

Lemma commit_S e p n s :
  commit hook e p (S n) s =
  if same_deps (closure s) (current s) then s
  else commit hook e p n (refresh e p s).
Proof. reflexivity. Qed.

Lemma refresh_frame e p s :
  layoutY (refresh e p s) = layoutY s
  /\ closure (refresh e p s) = current s
  /\ now (refresh e p s) = now s
  /\ windowHeight (refresh e p s) = windowHeight s.
Proof.
  destruct e as [os ref], p as [d sc], s as [v ly an [cv cly] ef t h].
  unfold refresh. hook_unfold.
  destruct os, sc, v, ly as [y0|], ef; exec; auto.
Qed.

Lemma refresh_visible e p s :
  isVisible s = true ->
  isVisible (refresh e p s) = true
  /\ animValue (refresh e p s) = animValue s
  /\ (layoutY s <> None \/ OS e = web \/ scrollY p = false ->
      installed e p (refresh e p s)).
Proof.
  destruct e as [os ref], p as [d sc], s as [v ly an [cv cly] ef t h].
  cbn [isVisible]. intros ->.
  unfold refresh, installed. hook_unfold.
  destruct os, sc, ly as [y0|], ef; exec; repeat split; auto; fin.
Qed.

(** The effect of a render that is not yet visible: it installs the
    trigger of its code path, and on the scroll path the initial check
    against offset 0 may start the animation at once. *)
Lemma refresh_hidden e p s :
  isVisible s = false ->
  animValue s = [] ->
  (isVisible (refresh e p s) = false
   /\ animValue (refresh e p s) = []
   /\ installed e p (refresh e p s)
   /\ (OS e = native -> scrollY p = true ->
       forall y, layoutY s = Some y ->
       Qle_bool (y + windowHeight s * 0.1) (0 + windowHeight s) = false))
  \/ (isVisible (refresh e p s) = true
      /\ animValue (refresh e p s) = [mkTiming (now s) 0 (delay p)]
      /\ OS e = native /\ scrollY p = true
      /\ exists y, layoutY s = Some y
           /\ Qle_bool (y + windowHeight s * 0.1) (0 + windowHeight s) = true).
Proof.
  destruct e as [os ref], p as [d sc], s as [v ly an [cv cly] ef t h].
  cbn [isVisible animValue]. intros -> ->.
  unfold refresh, installed. hook_unfold.
  destruct os, sc, ly as [y0|], ef; exec.
  all: try (left; repeat split; eauto; try congruence;
            try (left; eexists; split; [reflexivity|lra]); fail).
  all: try (right; repeat split; eauto; fail).
  all: left; repeat split; eauto; intros _ _ y [= <-]; assumption.
Qed.

Lemma commit_O hc e p s : commit hc e p 0 s = s.
Proof. cbn. now destruct (same_deps _ _). Qed.

(** The commit loop stops after at most two passes. *)
Lemma commit2_cases e p s :
  commit hook e p 2 s =
  if same_deps (closure s) (current s) then s
  else if Bool.eqb (isVisible s) (isVisible (refresh e p s))
       then refresh e p s
       else refresh e p (refresh e p s).
Proof.
  rewrite commit_S. destruct (same_deps (closure s) (current s)); [easy|].
  rewrite commit_S, commit_O.
  destruct (refresh_frame e p s) as (Hl & Hc & _).
  unfold same_deps at 1. rewrite Hc. cbn [current r_isVisible r_layoutY].
  now rewrite Hl, same_layoutY_refl, andb_true_r.
Qed.

(** A property kept by every callback and by every pass of the effect is
    kept by a whole step. *)
Lemma step_preserves (P : State -> Prop) e p s ev :
  P (dispatch hook p s ev) ->
  (forall s', P s' -> P (refresh e p s')) ->
  P (step hook e p s ev).
Proof.
  intros Hd Hr. unfold step. rewrite commit2_cases.
  repeat match goal with |- context [if ?c then _ else _] => destruct c end;
    auto.
Qed.

Lemma commit_Inv e p s :
  started e s ->
  (isVisible s = true -> OS e = native -> scrollY p = true ->
   layoutY s <> None) ->
  (same_deps (closure s) (current s) = true -> Inv e p s) ->
  Inv e p (commit hook e p 2 s).
Proof.
  intros (Hs1 & Hs2 & Hs3) Hly Hsame. rewrite commit2_cases.
  destruct (same_deps (closure s) (current s)); [auto|clear Hsame].
  destruct (refresh_frame e p s) as (Fl & Fc & _).
  destruct (isVisible s) eqn:Hv.
  - (* already visible: the effect only reinstalls *)
    destruct (refresh_visible e p s Hv) as (Rv & Ra & Ri).
    rewrite Rv. cbn [Bool.eqb].
    repeat split.
    + unfold settled, current. now rewrite Fc, Rv, Fl, <- Hv.
    + apply Ri. destruct (OS e) eqn:?, (scrollY p) eqn:?; auto.
    + congruence.
    + rewrite Ra. auto.
    + rewrite Ra. auto.
  - destruct (refresh_hidden e p s Hv (Hs1 eq_refl))
      as [(Rv & Ra & Ri & _) | (Rv & Ra & Hos & Hsc & y & Hy & _)].
    + (* the trigger is installed, nothing started *)
      rewrite Rv. cbn [Bool.eqb].
      repeat split; auto.
      * unfold settled, current. now rewrite Fc, Rv, Fl, <- Hv.
      * congruence.
      * rewrite Ra. cbn. lia.
    + (* the initial check fired: one more pass *)
      rewrite Rv. cbn [Bool.eqb].
      destruct (refresh_frame e p (refresh e p s)) as (Fl' & Fc' & _).
      destruct (refresh_visible e p _ Rv) as (Rv' & Ra' & Ri').
      repeat split.
      * unfold settled, current. now rewrite Fc', Rv', Fl', <- Rv.
      * apply Ri'. left. rewrite Fl, Hy. discriminate.
      * congruence.
      * rewrite Ra', Ra. discriminate.
      * rewrite Ra', Ra. cbn. lia.
Qed.

(** Reading the invariant of a state given field by field. *)
Ltac inv_fields H :=
  unfold Inv, settled, installed, started in H; cbn in H;
  destruct H as (Hc & Hi & Hs1 & Hs2 & Hs3); injection Hc as -> ->.

Ltac break_hyps :=
  repeat match goal with
  | H : _ \/ _ |- _ => destruct H
  | H : _ /\ _ |- _ => destruct H
  | H : ex _ |- _ => destruct H
  end.

Ltac qcase_in E :=
  match type of E with
  | context [Qle_bool ?a ?b] => destruct (Qle_bool a b) eqn:?
  | context [Qeq_bool ?a ?b] => destruct (Qeq_bool a b) eqn:?
  end.

(** Evaluate the state named by the equation [E]. *)
Ltac exec_in E :=
  unfold step, dispatch, mount, unmount, App.useScrollAnimation, App.onLayout,
    App.timerCallback, App.checkAndAnimate, App.animateIn, App.effect_body,
    setLayoutY, setIsVisible, Animated_timing_start, cleanup,
    observer_disconnect, clearTimeout, removeListener, current, same_deps
    in E;
  cbn in E; repeat (qcase_in E; cbn in E).

Ltac qfacts :=
  repeat match goal with
  | H : Qle_bool ?a ?b = true |- _ => apply (proj1 (Qle_bool_iff a b)) in H
  | H : Qle_bool ?a ?b = false |- _ =>
      assert (b < a) by
        (let K := fresh in
         apply Qnot_le_lt; intro K;
         apply (proj2 (Qle_bool_iff a b)) in K; congruence);
      clear H
  end.

Lemma dispatch_simple e p s ev :
  (forall l, ev <> Intersect l) ->
  Inv e p s ->
  started e (dispatch hook p s ev)
  /\ (isVisible (dispatch hook p s ev) = true ->
      OS e = native -> scrollY p = true ->
      layoutY (dispatch hook p s ev) <> None)
  /\ (same_deps (closure (dispatch hook p s ev))
                (current (dispatch hook p s ev)) = true ->
      Inv e p (dispatch hook p s ev)).
Proof.
  intros Hev H.
  destruct e as [os ref], p as [d sc], s as [v ly an [cv cly] ef t h].
  inv_fields H.
  destruct ev as [y|x|l| |dt|hh]; try (exfalso; eapply Hev; reflexivity).
  all: clear Hev; destruct os, sc, v, ly as [y0|]; cbn in Hi.
  all: break_hyps; subst; try discriminate.
  all: try (rewrite Hs1 by reflexivity).
  all: match goal with
       | |- context [dispatch ?a ?b ?c ?d] =>
           remember (dispatch a b c d) as s' eqn:E
       end; exec_in E; subst s'.
  all: unfold started, Inv, settled, installed, current, same_deps; cbn.
  all: rewrite ?Qeq_bool_refl; cbn.
  all: repeat match goal with
         | H : ?c = _ |- context [?c] => rewrite H
         end; cbn.
  all: repeat split; intros; try congruence; try discriminate; auto;
       try (cbn; lia).
  all: try (eexists; reflexivity).
  all: left; eexists; split; [reflexivity | qfacts; lra].
Qed.

Lemma observer_entry p r s :
  r_isVisible r = false ->
  (effect s = Idle \/ exists b, effect s = Observing b) ->
  observer_fired s (observer_disconnect (App.animateIn p r s)).
Proof.
  intros Hr He. destruct s as [v ly an c ef t h].
  unfold observer_fired, App.animateIn. rewrite Hr.
  unfold observer_disconnect, Animated_timing_start, setIsVisible.
  cbn in He. destruct He as [->|[b ->]]; destruct v; cbn;
    repeat split; congruence.
Qed.

Lemma observer_fired_trans s1 s2 s3 :
  observer_fired s1 s2 -> observer_fired s2 s3 -> observer_fired s1 s3.
Proof.
  unfold observer_fired. intuition congruence.
Qed.

Lemma observerCallback_fired p r entries s0 s :
  r_isVisible r = false ->
  observer_fired s0 s ->
  observer_fired s0 (App.observerCallback p r entries s).
Proof.
  intros Hr. unfold App.observerCallback.
  revert s. induction entries as [|[|] entries IH]; cbn; intros s H; auto.
  apply IH. eapply observer_fired_trans; [exact H|].
  apply observer_entry; auto. left. apply H.
Qed.

Lemma observerCallback_cases p r entries s b :
  r_isVisible r = false ->
  effect s = Observing b ->
  App.observerCallback p r entries s = s
  \/ observer_fired s (App.observerCallback p r entries s).
Proof.
  intros Hr He. unfold App.observerCallback.
  induction entries as [|[|] entries IH]; cbn; auto.
  right. apply (observerCallback_fired p r entries s); auto.
  apply observer_entry; eauto.
Qed.

Lemma dispatch_Inv e p s ev :
  Inv e p s ->
  started e (dispatch hook p s ev)
  /\ (isVisible (dispatch hook p s ev) = true ->
      OS e = native -> scrollY p = true ->
      layoutY (dispatch hook p s ev) <> None)
  /\ (same_deps (closure (dispatch hook p s ev))
                (current (dispatch hook p s ev)) = true ->
      Inv e p (dispatch hook p s ev)).
Proof.
  intros H.
  destruct ev as [y|x|l| |dt|hh];
    try (apply dispatch_simple; [discriminate|assumption]).
  assert (Hkeep : started e s
          /\ (isVisible s = true -> OS e = native -> scrollY p = true ->
              layoutY s <> None)
          /\ (same_deps (closure s) (current s) = true -> Inv e p s)).
  { pose proof H as (Hc & Hi & Hs). repeat split; try apply Hs; auto.
    intros Hv Hos Hsc. unfold installed in Hi. rewrite Hos, Hsc, Hv in Hi.
    apply Hi. }
  cbn [dispatch].
  destruct (effect s) as [|[|]| |] eqn:Hef; try exact Hkeep.
  cbn [hc_observerCallback hook].
  pose proof H as (Hc & Hi & Hs1 & Hs2 & Hs3).
  assert (Hweb : OS e = web /\ isVisible s = false).
  { unfold installed in Hi. rewrite Hef in Hi.
    destruct (OS e), (scrollY p), (isVisible s); try discriminate; auto;
      break_hyps; discriminate. }
  destruct Hweb as (Hweb & Hv).
  assert (Hr : r_isVisible (closure s) = false).
  { rewrite Hc. exact Hv. }
  destruct (observerCallback_cases p (closure s) l s true Hr Hef) as [-> | F];
    [exact Hkeep|].
  destruct F as (Fv & Fa & Fe & Fl & Fc & _).
  split; [|split].
  - repeat split; congruence.
  - congruence.
  - unfold same_deps, current. rewrite Fv, Fc, Hc. cbn.
    rewrite Hv. cbn. discriminate.
Qed.

Lemma step_Inv e p s ev :
  Inv e p s -> Inv e p (step hook e p s ev).
Proof.
  intros H. destruct (dispatch_Inv e p s ev H) as (Hs & Hl & Hsame).
  now apply commit_Inv.
Qed.

(** The commit loop of a step ends because the dependencies have come to
    rest, not because the fuel ran out. *)
Lemma commit_more hc e p n : forall s,
  settled (commit hc e p n s) ->
  commit hc e p (S n) s = commit hc e p n s.
Proof.
  induction n as [|n IH]; intros s Hs.
  - rewrite commit_O in *. now apply commit_settled.
  - cbn [commit] in *.
    destruct (same_deps (closure s) (current s)); [reflexivity|].
    apply IH, Hs.
Qed.

Lemma step_fuel e p s ev n :
  Inv e p s ->
  commit hook e p (2 + n) (dispatch hook p s ev) = step hook e p s ev.
Proof.
  intros H. pose proof (step_Inv e p s ev H) as (Hs & _). unfold step in *.
  induction n as [|n IH]; [reflexivity|].
  change (2 + S n)%nat with (S (2 + n)).
  rewrite commit_more; rewrite IH; auto.
Qed.

Lemma run_Inv e p evs : forall s,
  Inv e p s -> Inv e p (run hook e p s evs).
Proof.
  induction evs as [|ev evs IH]; cbn; intros s H; auto.
  apply IH, step_Inv, H.
Qed.

Lemma mount_Inv e p t h : Inv e p (mount hook e p t h).
Proof.
  unfold mount. apply commit_Inv.
  - destruct e as [[|] ref], p as [d [|]]; unfold started; cbn;
      repeat split; try congruence; cbn; lia.
  - destruct e as [[|] ref], p as [d [|]]; cbn; discriminate.
  - destruct e as [[|] ref], p as [d [|]]; intros _;
      unfold Inv, settled, installed, started; cbn;
      repeat split; try congruence; try (cbn; lia); eauto.
    left. eexists; split; [reflexivity|lra].
Qed.

(** Evaluate [dispatch] on a state that satisfies the invariant, for the
    events other than [Intersect]. *)
Ltac dispatch_cases e p s H :=
  destruct e as [os ref], p as [d sc], s as [v ly an [cv cly] ef t h];
  unfold Inv, settled, installed, started in H; cbn in H;
  destruct H as (Hc & Hi & Hs1 & Hs2 & Hs3); injection Hc as -> ->;
  destruct os, sc, v, ly as [y0|]; cbn in Hi;
  break_hyps; subst; try discriminate;
  try (rewrite Hs1 by reflexivity);
  match goal with
  | |- context [dispatch ?a ?b ?c ?d] =>
      let s' := fresh "s'" in
      let E := fresh "E" in
      remember (dispatch a b c d) as s' eqn:E; exec_in E; subst s'
  end.

Lemma dispatch_intersect e p s l :
  Inv e p s ->
  dispatch hook p s (Intersect l) = s
  \/ (OS e = web /\ isVisible s = false
      /\ observer_fired s (dispatch hook p s (Intersect l))).
Proof.
  intros (Hc & Hi & _). cbn [dispatch].
  destruct (effect s) as [|[|]| |] eqn:Hef; auto.
  cbn [hc_observerCallback hook].
  assert (Hweb : OS e = web /\ isVisible s = false).
  { unfold installed in Hi. rewrite Hef in Hi.
    destruct (OS e), (scrollY p), (isVisible s); try discriminate; auto;
      break_hyps; discriminate. }
  destruct Hweb as (Hweb & Hv).
  assert (Hr : r_isVisible (closure s) = false).
  { rewrite Hc. exact Hv. }
  destruct (observerCallback_cases p (closure s) l s true Hr Hef); auto.
Qed.

Lemma dispatch_latched e p s ev :
  Inv e p s -> isVisible s = true ->
  isVisible (dispatch hook p s ev) = true
  /\ animValue (dispatch hook p s ev) = animValue s.
Proof.
  intros H Hv.
  destruct ev as [y|x|l| |dt|hh].
  3:{ destruct (dispatch_intersect e p s l H) as [-> | (_ & C & _)];
      [auto|congruence]. }
  all: revert Hv; dispatch_cases e p s H; cbn; auto; discriminate.
Qed.

(** Once visible, a target stays visible and no timing is started. *)
Lemma step_latched e p s ev :
  Inv e p s -> isVisible s = true ->
  isVisible (step hook e p s ev) = true
  /\ animValue (step hook e p s ev) = animValue s.
Proof.
  intros H Hv.
  apply (step_preserves
           (fun s' => isVisible s' = true /\ animValue s' = animValue s)
           e p s ev).
  - now apply (dispatch_latched e).
  - intros s' (Hv' & Ha').
    destruct (refresh_visible e p s' Hv') as (Rv & Ra & _).
    split; congruence.
Qed.

Lemma run_cons hc e p s ev evs :
  run hc e p s (ev :: evs) = run hc e p (step hc e p s ev) evs.
Proof. reflexivity. Qed.

Lemma run_app hc e p evs1 evs2 s :
  run hc e p s (evs1 ++ evs2) = run hc e p (run hc e p s evs1) evs2.
Proof. apply fold_left_app. Qed.

Lemma run_latched e p evs : forall s,
  Inv e p s -> isVisible s = true ->
  isVisible (run hook e p s evs) = true
  /\ animValue (run hook e p s evs) = animValue s.
Proof.
  induction evs as [|ev evs IH]; intros s H Hv; [now split|].
  rewrite run_cons.
  destruct (step_latched e p s ev H Hv) as (Hv' & Ha').
  destruct (IH _ (step_Inv e p s ev H) Hv') as (Hv'' & Ha'').
  split; congruence.
Qed.


(** Evaluate the commit loop on a state given field by field. *)
Ltac commit_eval :=
  unfold refresh; hook_unfold; unfold animValue_at; cbn;
  rewrite ?Qeq_bool_refl; cbn;
  repeat match goal with
    | H : ?c = _ |- context [?c] => rewrite H; cbn
    end.

(** A scroll update on the scroll path, before the target is visible. *)
Lemma step_scroll e p s y v :
  Inv e p s -> OS e = native -> scrollY p = true ->
  isVisible s = false -> layoutY s = Some y ->
  exists H,
    effect s = Listening H (H * 0.1)
    /\ step hook e p s (Scroll v) =
       if Qle_bool (y + H * 0.1) (v + H)
       then mkState true (Some y) [mkTiming (now s) 0 (delay p)]
                    (mkRender true (Some y)) Idle (now s) (windowHeight s)
       else s.
Proof.
  intros H Hos Hsc Hv Hy.
  destruct e as [os ref], p as [d sc], s as [vis ly an [cv cly] ef t h].
  cbn in Hos, Hsc, Hv, Hy. subst.
  inv_fields H. destruct Hi as [H ->]. rewrite Hs1 by reflexivity.
  exists H. split; [reflexivity|].
  unfold step. cbn [dispatch hc_listener hook effect closure].
  unfold App.checkAndAnimate. cbn [r_isVisible r_layoutY].
  destruct (Qle_bool (y + H * 0.1) (v + H)).
  - rewrite commit2_cases. commit_eval. reflexivity.
  - apply commit_settled. reflexivity.
Qed.
Lemma dispatch_sized e p s ev hw :
  Inv e p s -> is_Resize ev = false ->
  sized hw s -> sized hw (dispatch hook p s ev).
Proof.
  intros H Hev.
  destruct ev as [y|x|l| |dt|hh]; try discriminate.
  3:{ destruct (dispatch_intersect e p s l H) as [-> | (_ & _ & F)]; auto.
      destruct F as (_ & _ & Fe & _ & _ & _ & Fh).
      intros (Hh & _). split; [congruence|]. rewrite Fe. discriminate. }
  all: unfold sized; dispatch_cases e p s H; cbn;
    intros (Hh & HL); split; auto; intros; try discriminate; eauto.
Qed.

Lemma refresh_sized e p s h : sized h s -> sized h (refresh e p s).
Proof.
  destruct e as [os ref], p as [d sc], s as [v ly an [cv cly] ef t h0].
  unfold sized, refresh. hook_unfold. cbn. intros (-> & _).
  destruct os, sc, v, ly as [y0|], ef; exec; split; auto;
    intros H b [=]; auto.
Qed.

Lemma step_sized e p s ev h :
  Inv e p s -> is_Resize ev = false ->
  sized h s -> sized h (step hook e p s ev).
Proof.
  intros H Hev Hs. apply (step_preserves (sized h) e p s ev).
  - now apply (dispatch_sized e).
  - intros s'. apply refresh_sized.
Qed.

Lemma run_sized e p h evs : forall s,
  Inv e p s -> fixed_window evs = true ->
  sized h s -> sized h (run hook e p s evs).
Proof.
  induction evs as [|ev evs IH]; intros s H Hev Hs; [exact Hs|].
  cbn in Hev. apply andb_prop in Hev as (Hev & Hevs).
  rewrite run_cons. apply IH; auto using step_Inv.
  apply step_sized; auto. now destruct (is_Resize ev).
Qed.

Lemma mount_sized e p t h : sized h (mount hook e p t h).
Proof.
  unfold mount. cbv zeta. rewrite commit2_cases.
  assert (H0 : sized h (hc_effect hook e p (mkRender false None)
                          (mkState false None [] (mkRender false None)
                                   Idle t h))).
  { destruct e as [[|] ref], p as [d [|]]; unfold sized; cbn; split; auto;
      intros H b [=]; auto. }
  repeat match goal with |- context [if ?c then _ else _] => destruct c end;
    auto using refresh_sized.
Qed.

Lemma dispatch_timed e p s ev t0 :
  Inv e p s -> OS e = native -> scrollY p = false ->
  timed t0 s -> timed t0 (dispatch hook p s ev).
Proof.
  intros H Hos Hsc.
  destruct ev as [y|x|l| |dt|hh].
  3:{ destruct (dispatch_intersect e p s l H) as [-> | (C & _)]; auto.
      congruence. }
  all: revert Hos Hsc; unfold timed; dispatch_cases e p s H; cbn;
    try discriminate; intros _ _ (Ht & Hd & Ha).
  all: repeat split; auto; try (intros; discriminate).
  all: qfacts.
  all: try (constructor; [cbn|constructor]).
  all: try (specialize (Hd _ eq_refl)).
  all: try lra.
Qed.

Lemma refresh_timed e p s t0 :
  OS e = native -> scrollY p = false ->
  timed t0 s -> timed t0 (refresh e p s).
Proof.
  destruct e as [os ref], p as [d sc], s as [v ly an [cv cly] ef t h].
  cbn. intros -> ->. unfold timed, refresh. hook_unfold. cbn.
  intros (Ht & _ & Ha).
  destruct ef; cbn; repeat split; auto; intros ? [= <-]; lra.
Qed.

Lemma run_timed e p t0 evs : forall s,
  Inv e p s -> OS e = native -> scrollY p = false ->
  timed t0 s -> timed t0 (run hook e p s evs).
Proof.
  induction evs as [|ev evs IH]; intros s H Hos Hsc Ht; [exact Ht|].
  rewrite run_cons. apply IH; auto using step_Inv.
  apply (step_preserves (timed t0) e p s ev).
  - now apply (dispatch_timed e).
  - intros s'. now apply refresh_timed.
Qed.

Lemma mount_timed e p t h :
  OS e = native -> scrollY p = false -> timed t (mount hook e p t h).
Proof.
  destruct e as [os ref], p as [d sc]. intros Hos Hsc. cbn in Hos, Hsc.
  subst. unfold mount. cbv zeta. rewrite commit_settled by reflexivity.
  unfold timed; cbn. repeat split; try lra; auto.
  intros due [= <-]. lra.
Qed.

(** Scroll updates before the first layout measurement do nothing. *)
Lemma step_scroll_unmeasured e p s v :
  Inv e p s -> OS e = native -> scrollY p = true -> layoutY s = None ->
  isVisible s = false /\ step hook e p s (Scroll v) = s.
Proof.
  intros H Hos Hsc Hy.
  destruct e as [os ref], p as [d sc], s as [vis ly an [cv cly] ef t h].
  cbn in Hos, Hsc, Hy. subst.
  inv_fields H. destruct vis; [destruct Hi; congruence|].
  destruct Hi as [H ->]. split; [reflexivity|].
  unfold step. cbn. reflexivity.
Qed.

(** The first layout measurement runs the initial check against offset 0. *)
Lemma step_layout_first e p s y :
  Inv e p s -> OS e = native -> scrollY p = true -> layoutY s = None ->
  Qle_bool (y + windowHeight s * 0.1) (0 + windowHeight s) = true ->
  isVisible (step hook e p s (Layout y)) = true.
Proof.
  intros H Hos Hsc Hy.
  destruct e as [os ref], p as [d sc], s as [vis ly an [cv cly] ef t h].
  cbn in Hos, Hsc, Hy. subst.
  inv_fields H. destruct vis; [destruct Hi; congruence|].
  destruct Hi as [H ->]. rewrite Hs1 by reflexivity.
  cbn [windowHeight]. intros Hq.
  unfold step. cbn [dispatch hc_onLayout hook].
  rewrite commit2_cases. commit_eval. reflexivity.
Qed.

Lemma step_advance e p s dt :
  Inv e p s ->
  step hook e p s (Advance dt) =
  if Qle_bool 0 dt then set_now (now s + dt) s else s.
Proof.
  intros (Hc & _). unfold step. cbn [dispatch].
  apply commit_settled. unfold settled in *.
  destruct (Qle_bool 0 dt); auto.
Qed.

(** The timer of the fallback path coming due on a hidden target. *)
Lemma step_timer e p s :
  Inv e p s -> OS e = native -> scrollY p = false -> isVisible s = false ->
  exists due,
    effect s = TimerPending due /\ due <= now s + 80
    /\ (Qle_bool due (now s) = true ->
        isVisible (step hook e p s TimerFires) = true
        /\ animValue (step hook e p s TimerFires)
           = [mkTiming (now s) 0 (delay p)]).
Proof.
  intros H Hos Hsc Hv.
  destruct e as [os ref], p as [d sc], s as [vis ly an [cv cly] ef t h].
  cbn in Hos, Hsc, Hv. subst.
  inv_fields H. destruct Hi as [(due & -> & Hdue)|(_ & ?)]; [|discriminate].
  rewrite Hs1 by reflexivity.
  exists due. split; [reflexivity|split; [exact Hdue|]].
  cbn [now]. intros Hq.
  unfold step. cbn [dispatch hc_timerCallback hook effect closure now].
  rewrite Hq, commit2_cases. commit_eval. split; reflexivity.
Qed.

(** ** The hook's cleanup at unmount *)

Lemma unmount_idempotent s : unmount (unmount s) = unmount s.
Proof. destruct s as [v ly an c [|b|due|H b] t h]; reflexivity. Qed.

Lemma unmount_effect s : effect (unmount s) = Idle.
Proof. destruct s as [v ly an c [|b|due|H b] t h]; reflexivity. Qed.

(** After the cleanup no scroll, observer or timer event reaches the hook. *)
Lemma unmount_silences_triggers e p s ev :
  settled s ->
  match ev with Scroll _ | Intersect _ | TimerFires => True | _ => False end ->
  step hook e p (unmount s) ev = unmount s.
Proof.
  intros Hc Hev. unfold step.
  assert (Hd : dispatch hook p (unmount s) ev = unmount s).
  { destruct ev; try contradiction; cbn [dispatch];
      now rewrite unmount_effect. }
  rewrite Hd. apply commit_settled.
  destruct s as [v ly an c [|b|due|H b] t h]; exact Hc.
Qed.

(** The cleanup keeps no handle on a timing that was started: the
    timings recorded on [animValue] are untouched by it. *)
Lemma unmount_keeps_timing s : animValue (unmount s) = animValue s.
Proof. destruct s as [v ly an c [|b|due|H b] t h]; reflexivity. Qed.

(** ** Group lemmas *)

Lemma map_index_nth {A B : Type} (f : A -> nat -> B) (items : list A) :
  forall k i,
  nth_error (map_index f k items) i
  = option_map (fun item => f item (k + i)%nat) (nth_error items i).
Proof.
  induction items as [|item rest IH]; intros k [|i]; cbn; auto.
  - now rewrite Nat.add_0_r.
  - rewrite IH. now rewrite Nat.add_succ_r.
Qed.

Lemma group_run_nth hc e gevs : forall g i ps,
  nth_error g i = Some ps ->
  nth_error (group_run hc e g gevs) i
  = Some (fst ps, run hc e (fst ps) (snd ps) (events_of i gevs)).
Proof.
  induction gevs as [|gev gevs IH]; intros g i [p s] Hi; cbn.
  - exact Hi.
  - unfold group_run in *. cbn [fold_left].
    assert (Hstep : nth_error (group_step hc e g gev) i
                    = Some match addressed i gev with
                           | Some ev => (p, step hc e p s ev)
                           | None => (p, s)
                           end).
    { unfold group_step. rewrite map_index_nth, Hi. reflexivity. }
    rewrite (IH _ _ _ Hstep).
    destruct (addressed i gev); reflexivity.
Qed.

(** ** Visibility traces *)

Lemma visibility_cons hc e p s ev evs :
  visibility hc e p s (ev :: evs)
  = isVisible s :: visibility hc e p (step hc e p s ev) evs.
Proof. reflexivity. Qed.

Lemma visibility_head hc e p s evs :
  exists tl, visibility hc e p s evs = isVisible s :: tl.
Proof. destruct evs; eexists; reflexivity. Qed.

Lemma rises_cons a b tl :
  rises (a :: b :: tl) = ((if negb a && b then 1 else 0) + rises (b :: tl))%nat.
Proof. reflexivity. Qed.

Lemma falls_cons a b tl :
  falls (a :: b :: tl) = ((if a && negb b then 1 else 0) + falls (b :: tl))%nat.
Proof. reflexivity. Qed.

Lemma visibility_latched e p evs : forall s,
  Inv e p s -> isVisible s = true ->
  rises (visibility hook e p s evs) = O
  /\ falls (visibility hook e p s evs) = O.
Proof.
  induction evs as [|ev evs IH]; intros s H Hv; [now split|].
  rewrite visibility_cons.
  destruct (step_latched e p s ev H Hv) as (Hv' & _).
  destruct (IH _ (step_Inv e p s ev H) Hv') as (Hr & Hf).
  destruct (visibility_head hook e p (step hook e p s ev) evs) as (tl & E).
  rewrite E, Hv' in *. rewrite Hv, rises_cons, falls_cons, Hr, Hf.
  now split.
Qed.

Lemma visibility_once e p evs : forall s,
  Inv e p s ->
  (rises (visibility hook e p s evs) <= 1)%nat
  /\ falls (visibility hook e p s evs) = O.
Proof.
  induction evs as [|ev evs IH]; intros s H; [cbn; split; [lia|reflexivity]|].
  destruct (isVisible s) eqn:Hv.
  { destruct (visibility_latched e p (ev :: evs) s H Hv) as (-> & ->).
    split; [lia|reflexivity]. }
  rewrite visibility_cons.
  pose proof (step_Inv e p s ev H) as H'.
  destruct (visibility_head hook e p (step hook e p s ev) evs) as (tl & E).
  destruct (isVisible (step hook e p s ev)) eqn:Hv'.
  - destruct (visibility_latched e p evs _ H' Hv') as (Hr & Hf).
    rewrite E in *. rewrite ?Hv, ?Hv' in *.
    rewrite rises_cons, falls_cons, Hr, Hf. cbn. split; [lia|reflexivity].
  - destruct (IH _ H') as (Hr & Hf).
    rewrite E in *. rewrite ?Hv, ?Hv' in *.
    rewrite rises_cons, falls_cons, Hf.
    cbn [negb andb Nat.add]. split; [exact Hr|reflexivity].
Qed.

(** ** The scroll-offset comparison *)



(** C5. On the scroll path a target whose position has not been reported
    ([layoutY = null]) is not visible, and every scroll update, whatever
    its offset, leaves its state as it is. *)
Theorem unmeasured_target_never_triggers e p t h evs :
  OS e = native -> scrollY p = true ->
  let s := run hook e p (mount hook e p t h) evs in
  layoutY s = None ->
  isVisible s = false
  /\ (forall v, step hook e p s (Scroll v) = s)
  /\ (forall vs, run hook e p s (map Scroll vs) = s).
Proof.
  intros Hos Hsc s Hy.
  assert (HI : Inv e p s) by apply run_Inv, mount_Inv.
  assert (Hstep : forall v, step hook e p s (Scroll v) = s).
  { intros v. now apply step_scroll_unmeasured. }
  repeat split; auto.
  - now apply (step_scroll_unmeasured e p s 0).
  - induction vs as [|v vs IH]; [reflexivity|].
    cbn [map]. now rewrite run_cons, Hstep.
Qed.

Lemma unmeasured_target_never_triggers_witness :
  isVisible
    (run hook (mkEnv native true) (mkProps 0 true)
       (mount hook (mkEnv native true) (mkProps 0 true) 0 800)
       [Scroll 5000]) = false
  /\ run hook (mkEnv native true) (mkProps 0 true)
       (run hook (mkEnv native true) (mkProps 0 true)
          (mount hook (mkEnv native true) (mkProps 0 true) 0 800)
          [Scroll 5000])
       (map Scroll [0; 280; 100000])
     = run hook (mkEnv native true) (mkProps 0 true)
         (mount hook (mkEnv native true) (mkProps 0 true) 0 800)
         [Scroll 5000].
Proof.
  destruct (unmeasured_target_never_triggers (mkEnv native true)
              (mkProps 0 true) 0 800 [Scroll 5000] eq_refl eq_refl eq_refl)
    as (Hv & _ & Hrun).
  split; [exact Hv|exact (Hrun [0; 280; 100000])].
Defined.

Lemma step_layout_same e p s y :
  Inv e p s -> same_layoutY (layoutY s) (Some y) = true ->
  step hook e p s (Layout y) = s.
Proof.
  intros (Hc & _) Hsame. unfold step. cbn [dispatch hc_onLayout hook].
  unfold App.onLayout, setLayoutY. rewrite Hsame.
  now apply commit_settled.
Qed.

(** A layout event that changes the position of a hidden target on the
    scroll path: the effect runs again and makes its initial check. *)
Lemma step_layout_scroll e p s y :
  Inv e p s -> OS e = native -> scrollY p = true -> isVisible s = false ->
  same_layoutY (layoutY s) (Some y) = false ->
  step hook e p s (Layout y)
  = if Qle_bool (y + windowHeight s * 0.1) (0 + windowHeight s)
    then mkState true (Some y) [mkTiming (now s) 0 (delay p)]
                 (mkRender true (Some y)) Idle (now s) (windowHeight s)
    else mkState false (Some y) [] (mkRender false (Some y))
                 (Listening (windowHeight s) (windowHeight s * 0.1))
                 (now s) (windowHeight s).
Proof.
  intros H Hos Hsc Hv.
  destruct e as [os ref], p as [d sc], s as [vis ly an [cv cly] ef t h].
  cbn in Hos, Hsc, Hv. subst.
  inv_fields H. destruct Hi as [H ->]. rewrite Hs1 by reflexivity.
  cbn [layoutY now windowHeight]. intros Hsame.
  unfold step. cbn [dispatch hc_onLayout hook].
  unfold App.onLayout, setLayoutY. cbn [layoutY]. rewrite Hsame.
  rewrite commit2_cases.
  destruct ly as [y0|]; cbn in Hsame;
    destruct (Qle_bool (y + h * 0.1) (0 + h)) eqn:Hq;
    commit_eval; reflexivity.
Qed.

Lemma step_layoutY_frame e p s ev :
  Inv e p s -> is_Layout ev = false ->
  layoutY (step hook e p s ev) = layoutY s.
Proof.
  intros HI Hev.
  apply (step_preserves (fun s' => layoutY s' = layoutY s) e p s ev).
  - destruct ev as [y|x|l| |dt|hh]; try discriminate.
    2:{ destruct (dispatch_intersect e p s l HI) as [-> | (_ & _ & F)];
        [reflexivity|apply F]. }
    all: dispatch_cases e p s HI; reflexivity.
  - intros s' Hs'. destruct (refresh_frame e p s') as (Fl & _). congruence.
Qed.

(** A layout event leaves the reported position in [layoutY]. *)
Lemma step_layout_position e p s y :
  Inv e p s ->
  exists y1, layoutY (step hook e p s (Layout y)) = Some y1 /\ y1 == y.
Proof.
  intros HI.
  destruct (same_layoutY (layoutY s) (Some y)) eqn:Hsame.
  - rewrite (step_layout_same e p s y HI Hsame).
    destruct (layoutY s) as [y0|]; [|discriminate].
    exists y0. split; [reflexivity|]. now apply Qeq_bool_iff.
  - exists y. split; [|reflexivity].
    apply (step_preserves (fun s' => layoutY s' = Some y) e p s (Layout y)).
    + cbn [dispatch hc_onLayout hook]. unfold App.onLayout, setLayoutY.
      rewrite Hsame. reflexivity.
    + intros s' Hs'. destruct (refresh_frame e p s') as (Fl & _). congruence.
Qed.

Lemma step_unrevealed e p s ev H :
  Inv e p s -> OS e = native -> scrollY p = true ->
  is_Resize ev = false -> sized H s ->
  unrevealed H s -> unrevealed H (step hook e p s ev).
Proof.
  intros HI Hos Hsc Hev HS HU y Hv' Hy'.
  assert (Hv : isVisible s = false).
  { destruct (isVisible s) eqn:Hv; [|reflexivity].
    destruct (step_latched e p s ev HI Hv) as (C & _). congruence. }
  destruct (is_Layout ev) eqn:HL.
  - destruct ev as [y1| | | | |]; try discriminate.
    destruct (same_layoutY (layoutY s) (Some y1)) eqn:Hsame.
    + rewrite (step_layout_same e p s y1 HI Hsame) in Hy'. now apply HU.
    + rewrite (step_layout_scroll e p s y1 HI Hos Hsc Hv Hsame) in Hv', Hy'.
      destruct HS as (HW & _). rewrite HW in *.
      destruct (Qle_bool (y1 + H * 0.1) (0 + H)) eqn:Hq;
        cbn in Hv', Hy'; [discriminate|].
      injection Hy' as <-. exact Hq.
  - rewrite (step_layoutY_frame e p s ev HI HL) in Hy'. now apply HU.
Qed.

Lemma run_unrevealed e p H evs : forall s,
  Inv e p s -> OS e = native -> scrollY p = true ->
  fixed_window evs = true -> sized H s ->
  unrevealed H s -> unrevealed H (run hook e p s evs).
Proof.
  induction evs as [|ev evs IH]; intros s HI Hos Hsc Hev HS HU; [exact HU|].
  cbn in Hev. apply andb_prop in Hev as (Hev & Hevs).
  assert (Hr : is_Resize ev = false) by now destruct (is_Resize ev).
  rewrite run_cons.
  apply IH; auto using step_Inv, step_sized, step_unrevealed.
Qed.

Lemma mount_unrevealed e p t H :
  OS e = native -> scrollY p = true -> unrevealed H (mount hook e p t H).
Proof.
  destruct e as [os ref], p as [d sc]. intros Hos Hsc. cbn in Hos, Hsc.
  subst. intros y _ Hy. discriminate.
Qed.

(** C8, as stated, fails: a negative measured position passes the initial
    check against offset 0, so the target is revealed at once. *)
Lemma negative_position_triggers :
  ~ (forall y : Q, y < 0 -> forall vs : list Q,
       isVisible
         (run hook (mkEnv native true) (mkProps 0 true)
            (mount hook (mkEnv native true) (mkProps 0 true) 0 800)
            (Layout y :: map Scroll vs)) = false).
Proof.
  intros C. specialize (C (-50) eq_refl []). vm_compute in C. discriminate.
Qed.

(** C8, amended.  On the scroll path, in a window of constant height
    [H], no reported position raises an error (every function involved is
    total).  Reporting a negative position, [H] being non-negative,
    reveals the target at once, whether it had no position yet or was
    measured elsewhere before: the initial check against offset 0 passes
    and, if the target was hidden, one timing is started at the instant of
    that layout event.  Reporting to a hidden target a position [y] so
    large that [v + H < y + 0.1 * H] for offset 0 and for every scroll
    offset [v] delivered afterwards leaves it hidden with no timing
    started, and those scroll updates do not change its state; the same
    holds of a hidden target already measured at such a position. *)
Theorem measured_position_extremes e p t H evs :
  OS e = native -> scrollY p = true -> fixed_window evs = true ->
  let s := run hook e p (mount hook e p t H) evs in
  (forall y, 0 <= H -> y < 0 ->
     isVisible (step hook e p s (Layout y)) = true
     /\ (exists y1, layoutY (step hook e p s (Layout y)) = Some y1
                    /\ y1 == y)
     /\ (isVisible s = false ->
         animValue (step hook e p s (Layout y))
         = [mkTiming (now s) 0 (delay p)]))
  /\ (forall y vs, isVisible s = false ->
        0 + H < y + 0.1 * H ->
        Forall (fun v => v + H < y + 0.1 * H) vs ->
        let s1 := step hook e p s (Layout y) in
        isVisible s1 = false /\ animValue s1 = []
        /\ run hook e p s (Layout y :: map Scroll vs) = s1)
  /\ (forall y vs, isVisible s = false -> layoutY s = Some y ->
        Forall (fun v => v + H < y + 0.1 * H) vs ->
        run hook e p s (map Scroll vs) = s).
Proof.
  intros Hos Hsc Hev s.
  assert (HI : Inv e p s) by apply run_Inv, mount_Inv.
  assert (HS : sized H s).
  { apply run_sized; auto using mount_Inv, mount_sized. }
  assert (HU : unrevealed H s).
  { apply run_unrevealed;
      auto using mount_Inv, mount_sized, mount_unrevealed. }
  assert (Hscrolls : forall s0 y vs,
            Inv e p s0 -> sized H s0 -> isVisible s0 = false ->
            layoutY s0 = Some y ->
            Forall (fun v => v + H < y + 0.1 * H) vs ->
            run hook e p s0 (map Scroll vs) = s0).
  { intros s0 y vs HI0 HS0 Hv Hy Hvs.
    induction Hvs as [|v vs Hlt _ IH]; [reflexivity|].
    cbn [map]. rewrite run_cons.
    destruct (step_scroll e p s0 y v HI0 Hos Hsc Hv Hy) as (H' & He & ->).
    destruct HS0 as (_ & HL). apply HL in He as ->.
    destruct (Qle_bool (y + H * 0.1) (v + H)) eqn:Hq; [|exact IH].
    qfacts. lra. }
  split; [|split].
  - intros y HH Hneg.
    split; [|split; [apply step_layout_position, HI|]].
    + destruct (isVisible s) eqn:Hv; [now apply step_latched|].
      assert (Hsame : same_layoutY (layoutY s) (Some y) = false).
      { destruct (layoutY s) as [y0|] eqn:Hy0; [|reflexivity].
        cbn. destruct (Qeq_bool y0 y) eqn:Hq; [|reflexivity].
        apply Qeq_bool_iff in Hq. specialize (HU y0 Hv Hy0). qfacts. lra. }
      rewrite (step_layout_scroll e p s y HI Hos Hsc Hv Hsame).
      destruct HS as (-> & _).
      assert (Hq : Qle_bool (y + H * 0.1) (0 + H) = true)
        by (apply Qle_bool_iff; lra).
      now rewrite Hq.
    + intros Hv.
      assert (Hsame : same_layoutY (layoutY s) (Some y) = false).
      { destruct (layoutY s) as [y0|] eqn:Hy0; [|reflexivity].
        cbn. destruct (Qeq_bool y0 y) eqn:Hq; [|reflexivity].
        apply Qeq_bool_iff in Hq. specialize (HU y0 Hv Hy0). qfacts. lra. }
      rewrite (step_layout_scroll e p s y HI Hos Hsc Hv Hsame).
      destruct HS as (-> & _).
      assert (Hq : Qle_bool (y + H * 0.1) (0 + H) = true)
        by (apply Qle_bool_iff; lra).
      now rewrite Hq.
  - intros y vs Hv Hfar Hvs s1.
    assert (HI1 : Inv e p s1) by apply step_Inv, HI.
    assert (HS1 : sized H s1) by (apply step_sized; auto).
    assert (Hfacts : isVisible s1 = false /\ animValue s1 = []
                     /\ exists y1, layoutY s1 = Some y1 /\ y1 == y).
    { unfold s1.
      destruct (same_layoutY (layoutY s) (Some y)) eqn:Hsame.
      - rewrite (step_layout_same e p s y HI Hsame).
        destruct HI as (_ & _ & Hs & _).
        split; [exact Hv|]. split; [now apply Hs|].
        destruct (layoutY s) as [y0|]; [|discriminate].
        exists y0. split; [reflexivity|]. now apply Qeq_bool_iff.
      - rewrite (step_layout_scroll e p s y HI Hos Hsc Hv Hsame).
        destruct HS as (-> & _).
        assert (Hq : Qle_bool (y + H * 0.1) (0 + H) = false).
        { destruct (Qle_bool (y + H * 0.1) (0 + H)) eqn:Hq; [|reflexivity].
          apply Qle_bool_iff in Hq. lra. }
        rewrite Hq. cbn. repeat split. exists y. split; reflexivity. }
    destruct Hfacts as (Hv1 & Ha1 & y1 & Hy1 & Hyy).
    split; [exact Hv1|]. split; [exact Ha1|].
    rewrite run_cons. fold s1.
    apply (Hscrolls s1 y1 vs HI1 HS1 Hv1 Hy1).
    eapply Forall_impl; [|exact Hvs]. cbn. intros v Hlt. lra.
  - intros y vs Hv Hy Hvs. now apply (Hscrolls s y vs).
Qed.

Lemma measured_position_extremes_witness :
  animValue
    (step hook (mkEnv native true) (mkProps 0 true)
       (run hook (mkEnv native true) (mkProps 0 true)
          (mount hook (mkEnv native true) (mkProps 0 true) 0 800)
          [Layout 1000])
       (Layout (-50)))
  = [mkTiming 0 0 0]
  /\ run hook (mkEnv native true) (mkProps 0 true)
       (run hook (mkEnv native true) (mkProps 0 true)
          (mount hook (mkEnv native true) (mkProps 0 true) 0 800) [])
       (Layout 100000 :: map Scroll [0; 5000])
     = step hook (mkEnv native true) (mkProps 0 true)
         (run hook (mkEnv native true) (mkProps 0 true)
            (mount hook (mkEnv native true) (mkProps 0 true) 0 800) [])
         (Layout 100000).
Proof.
  split.
  - refine (proj2 (proj2 (proj1 (measured_position_extremes
                                   (mkEnv native true) (mkProps 0 true)
                                   0 800 [Layout 1000]
                                   eq_refl eq_refl eq_refl)
                            (-50) _ _)) eq_refl).
    + unfold Qle; simpl; lia.
    + reflexivity.
  - refine (proj2 (proj2 (proj1 (proj2 (measured_position_extremes
                                          (mkEnv native true)
                                          (mkProps 0 true) 0 800 []
                                          eq_refl eq_refl eq_refl))
                            100000 [0; 5000] eq_refl _ _))).
    + reflexivity.
    + repeat constructor.
Defined.

(** ** The visibility latch *)

(** C2. Along every run from mount, on every platform and for every
    sequence of layout, scroll, observer, timer, clock and resize events,
    [isVisible] changes from false to true at most once and never from
    true to false; and once it is true, no later event starts a timing on
    [animValue] again. *)
Theorem visible_latches_once e p t h :
  (forall evs,
     (rises (visibility hook e p (mount hook e p t h) evs) <= 1)%nat
     /\ falls (visibility hook e p (mount hook e p t h) evs) = O)
  /\ (forall evs1 evs2,
        isVisible (run hook e p (mount hook e p t h) evs1) = true ->
        isVisible (run hook e p (mount hook e p t h) (evs1 ++ evs2)) = true
        /\ animValue (run hook e p (mount hook e p t h) (evs1 ++ evs2))
           = animValue (run hook e p (mount hook e p t h) evs1)).
Proof.
  split.
  - intros evs. apply visibility_once, mount_Inv.
  - intros evs1 evs2 Hv. rewrite run_app.
    apply run_latched; [apply run_Inv, mount_Inv|exact Hv].
Qed.

Lemma visible_latches_once_witness :
  animValue
    (run hook (mkEnv native true) (mkProps 0 true)
       (mount hook (mkEnv native true) (mkProps 0 true) 0 800)
       ([Layout 1000; Scroll 280]
        ++ [Scroll 0; Advance 900; Layout 5000; Scroll 4500]))
  = animValue
      (run hook (mkEnv native true) (mkProps 0 true)
         (mount hook (mkEnv native true) (mkProps 0 true) 0 800)
         [Layout 1000; Scroll 280]).
Proof.
  apply (proj2 (visible_latches_once (mkEnv native true) (mkProps 0 true)
                  0 800)
           [Layout 1000; Scroll 280]
           [Scroll 0; Advance 900; Layout 5000; Scroll 4500]).
  reflexivity.
Defined.

(** ** The fallback without a scroll value *)

Lemma started_length e s :
  started e s -> OS e = native ->
  (isVisible s = true <-> List.length (animValue s) = 1%nat).
Proof.
  intros (H1 & H2 & H3) Hos. specialize (H3 Hos).
  destruct (isVisible s).
  - specialize (H2 eq_refl). destruct (animValue s) as [|a [|b l]];
      cbn in *; split; intros; try congruence; try lia.
  - rewrite (H1 eq_refl). cbn. split; discriminate.
Qed.

Lemma fallback_fires e p s :
  Inv e p s -> OS e = native -> scrollY p = false ->
  isVisible (run hook e p s [Advance 80; TimerFires]) = true.
Proof.
  intros HI Hos Hsc.
  destruct (isVisible s) eqn:Hv.
  { now apply run_latched. }
  rewrite run_cons, (step_advance e p s 80 HI).
  change (Qle_bool 0 80) with true. cbv iota.
  set (s1 := set_now (now s + 80) s).
  assert (HI1 : Inv e p s1).
  { pose proof (step_Inv e p s (Advance 80) HI) as HI1.
    rewrite (step_advance e p s 80 HI) in HI1. exact HI1. }
  destruct (step_timer e p s HI Hos Hsc Hv) as (due & He & Hdue & _).
  destruct (step_timer e p s1 HI1 Hos Hsc Hv) as (due1 & He1 & _ & Hfire).
  assert (due1 = due) as ->.
  { unfold s1 in He1. cbn in He1. congruence. }
  cbn [run fold_left]. apply Hfire.
  apply Qle_bool_iff. unfold s1. cbn. lra.
Qed.

(** C4. Registered on the native platform with no scroll value, a target
    needs neither a scroll nor a layout event: whatever has happened so
    far, 80 ms of elapsed time followed by the timer callback leave it
    visible with exactly one timing started, and from mount at clock [t]
    that timing starts at [t + 80].  Over every run, at most one timing
    is ever started and none earlier than [t + 80]. *)
Theorem no_signal_fallback_fires_once e p t h :
  OS e = native -> scrollY p = false ->
  (forall evs,
     let s := run hook e p (mount hook e p t h) evs in
     (List.length (animValue s) <= 1)%nat
     /\ Forall (fun a => t + 80 <= startedAt a) (animValue s)
     /\ (isVisible s = true <-> List.length (animValue s) = 1%nat))
  /\ (forall evs,
        let s := run hook e p (mount hook e p t h)
                   (evs ++ [Advance 80; TimerFires]) in
        isVisible s = true /\ List.length (animValue s) = 1%nat)
  /\ animValue (run hook e p (mount hook e p t h) [Advance 80; TimerFires])
     = [mkTiming (t + 80) 0 (delay p)].
Proof.
  intros Hos Hsc. split; [|split].
  - intros evs s.
    assert (HI : Inv e p s) by apply run_Inv, mount_Inv.
    assert (HT : timed t s).
    { apply run_timed; auto using mount_Inv, mount_timed. }
    split; [|split].
    + now apply HI.
    + apply HT.
    + apply (started_length e); auto. apply HI.
  - intros evs s.
    assert (Hv : isVisible s = true).
    { unfold s. rewrite run_app.
      apply fallback_fires; auto. apply run_Inv, mount_Inv. }
    split; [exact Hv|].
    apply (started_length e); auto. apply run_Inv, mount_Inv.
  - pose proof (mount_Inv e p t h) as HI.
    assert (Hm : mount hook e p t h
                 = mkState false None [] (mkRender false None)
                           (TimerPending (t + 80)) t h).
    { destruct e as [os ref], p as [d sc]. cbn in Hos, Hsc. subst.
      unfold mount. cbv zeta. now rewrite commit_settled by reflexivity. }
    rewrite run_cons, (step_advance e p _ 80 HI).
    change (Qle_bool 0 80) with true. cbv iota.
    set (s1 := set_now (now (mount hook e p t h) + 80) (mount hook e p t h)).
    assert (HI1 : Inv e p s1).
    { pose proof (step_Inv e p _ (Advance 80) HI) as HI1.
      rewrite (step_advance e p _ 80 HI) in HI1. exact HI1. }
    assert (Hv1 : isVisible s1 = false).
    { unfold s1. now rewrite Hm. }
    destruct (step_timer e p s1 HI1 Hos Hsc Hv1) as (due & He & _ & Hfire).
    cbn [run fold_left]. 
    assert (Hq : Qle_bool due (now s1) = true).
    { unfold s1 in *. rewrite Hm in *. cbn in *.
      injection He as <-. apply Qle_bool_iff. lra. }
    destruct (Hfire Hq) as (_ & ->).
    unfold s1. rewrite Hm. reflexivity.
Qed.

Lemma no_signal_fallback_fires_once_witness :
  animValue
    (run hook (mkEnv native true) (mkProps 0 false)
       (mount hook (mkEnv native true) (mkProps 0 false) 0 800)
       [Advance 80; TimerFires])
  = [mkTiming (0 + 80) 0 0].
Proof.
  exact (proj2 (proj2 (no_signal_fallback_fires_once (mkEnv native true)
                         (mkProps 0 false) 0 800 eq_refl eq_refl))).
Defined.

(** ** Staggered groups *)

(** C6. [StaggeredScrollAnimation] hands the child at index [i] the delay
    [i * itemDelay], with [itemDelay] defaulting to 100; three children
    with [itemDelay = 100] get 0, 100 and 200.  In a group run the state
    of the child at index [i] is the state of that child run alone on the
    events that reach it: it does not depend on the states, props or
    events of its siblings. *)
Theorem stagger_delays_and_independence :
  (forall (A : Type) itemDelay scrollY (children : list A) i,
     nth_error (App.StaggeredScrollAnimation itemDelay scrollY children) i
     = option_map
         (fun child =>
            (mkProps (inject_Z (Z.of_nat i)
                      * match itemDelay with Some d => d | None => 100 end)
                     scrollY,
             child))
         (nth_error children i))
  /\ (forall (A : Type) scrollY (a b c : A),
        map (fun x => delay (fst x))
            (App.StaggeredScrollAnimation (Some 100) scrollY [a; b; c])
        = [0; 100; 200]
        /\ App.StaggeredScrollAnimation None scrollY [a; b; c]
           = App.StaggeredScrollAnimation (Some 100) scrollY [a; b; c])
  /\ (forall (A : Type) e t h itemDelay scrollY (children : list A) gevs i,
        nth_error
          (group_run hook e
             (group_mount hook e t h
                (App.StaggeredScrollAnimation itemDelay scrollY children))
             gevs) i
        = option_map
            (fun x => (fst x,
                       run hook e (fst x) (mount hook e (fst x) t h)
                           (events_of i gevs)))
            (nth_error
               (App.StaggeredScrollAnimation itemDelay scrollY children) i)).
Proof.
  split; [|split].
  - intros A itemDelay sc children i.
    unfold App.StaggeredScrollAnimation. rewrite map_index_nth.
    reflexivity.
  - intros A sc a b c. split; reflexivity.
  - intros A e t h itemDelay sc children gevs i.
    set (g := App.StaggeredScrollAnimation itemDelay sc children).
    destruct (nth_error g i) as [x|] eqn:Hx; cbn [option_map].
    + assert (Hm : nth_error (group_mount hook e t h g) i
                   = Some (fst x, mount hook e (fst x) t h)).
      { unfold group_mount. rewrite nth_error_map, Hx. reflexivity. }
      rewrite (group_run_nth hook e gevs _ _ _ Hm). reflexivity.
    + apply nth_error_None in Hx. apply nth_error_None.
      assert (Hlen : forall gevs g0,
                 List.length (group_run hook e g0 gevs) = List.length g0).
      { clear. induction gevs as [|gev gevs IH]; intros g0; [reflexivity|].
        unfold group_run in *. cbn [fold_left]. rewrite IH.
        unfold group_step. generalize O.
        induction g0 as [|x g0 IHg]; intros k; cbn; auto. }
      rewrite Hlen. unfold group_mount. now rewrite length_map.
Qed.

(** ** The style *)

(** C7. The style read maps a progress value [p] to [opacity = p] and
    [translateY = 60 * (1 - p)]: 0 and 60 at [p = 0], 1 and 0 at [p = 1],
    opacity increasing and the offset decreasing with [p]. *)
Theorem animationStyle_linear :
  (forall s t, style_at hook s t = App.animationStyle (animValue_at s t))
  /\ (forall p,
        opacity (App.animationStyle p) = p
        /\ translateY (App.animationStyle p) == 60 * (1 - p))
  /\ (opacity (App.animationStyle 0) = 0
      /\ translateY (App.animationStyle 0) == 60)
  /\ (opacity (App.animationStyle 1) = 1
      /\ translateY (App.animationStyle 1) == 0)
  /\ (forall p q, p <= q ->
        opacity (App.animationStyle p) <= opacity (App.animationStyle q)
        /\ translateY (App.animationStyle q)
           <= translateY (App.animationStyle p))
  /\ (forall p q, p < q ->
        opacity (App.animationStyle p) < opacity (App.animationStyle q)
        /\ translateY (App.animationStyle q)
           < translateY (App.animationStyle p)).
Proof.
  assert (HT : forall p, translateY (App.animationStyle p) == 60 * (1 - p)).
  { intros p. unfold App.animationStyle, interpolate. cbn. field. }
  repeat split; intros; try reflexivity; rewrite ?HT; cbn [opacity App.animationStyle]; try lra.
Qed.

Lemma animationStyle_linear_witness :
  opacity (App.animationStyle 0.25) <= opacity (App.animationStyle 0.5)
  /\ translateY (App.animationStyle 0.5)
     <= translateY (App.animationStyle 0.25).
Proof.
  apply (proj1 (proj2 (proj2 (proj2 (proj2 animationStyle_linear))))).
  unfold Qle; simpl; lia.
Defined.

(** ** The two variants *)

Lemma hooks_agree : App.useScrollAnimation = Part000.useScrollAnimation.
Proof.
  unfold App.useScrollAnimation, Part000.useScrollAnimation.
  f_equal.
Qed.

(** C9. The hook of [src/App.tsx] and the hook of [src/unnamed/part_000]
    agree on every input: for every platform, props, mount instant, window
    height and event sequence they reach the same state (visibility flag,
    position, started timings with their instants, installed trigger), go
    through the same visibility trace, and return the same style at every
    clock value. *)
Theorem variants_agree e p t h evs t' :
  run App.useScrollAnimation e p (mount App.useScrollAnimation e p t h) evs
  = run Part000.useScrollAnimation e p
      (mount Part000.useScrollAnimation e p t h) evs
  /\ visibility App.useScrollAnimation e p
       (mount App.useScrollAnimation e p t h) evs
     = visibility Part000.useScrollAnimation e p
         (mount Part000.useScrollAnimation e p t h) evs
  /\ style_at App.useScrollAnimation
       (run App.useScrollAnimation e p
          (mount App.useScrollAnimation e p t h) evs) t'
     = style_at Part000.useScrollAnimation
         (run Part000.useScrollAnimation e p
            (mount Part000.useScrollAnimation e p t h) evs) t'.
Proof.
  rewrite <- hooks_agree. repeat split.
Qed.

(** ** The contact form *)

(** C10. Submitting with an empty email or an empty message leaves the
    five fields as they are (and shows the "Missing info" alert);
    submitting with both present empties all five (and shows "Brief
    sent").  Both variants of the file behave so. *)
Theorem handleSubmit_presence_check :
  (forall form : App.Form,
     (App.email form = EmptyString \/ App.message form = EmptyString ->
      snd (App.handleSubmit form) = form
      /\ fst (fst (App.handleSubmit form)) = "Missing info"%string)
     /\ (App.email form <> EmptyString ->
         App.message form <> EmptyString ->
         snd (App.handleSubmit form)
         = App.mkForm EmptyString EmptyString EmptyString EmptyString
                      EmptyString
         /\ fst (fst (App.handleSubmit form)) = "Brief sent"%string))
  /\ (forall form : Part000.Form,
        (Part000.email form = EmptyString
         \/ Part000.message form = EmptyString ->
         snd (Part000.handleSubmit form) = form
         /\ fst (fst (Part000.handleSubmit form)) = "Missing info"%string)
        /\ (Part000.email form <> EmptyString ->
            Part000.message form <> EmptyString ->
            snd (Part000.handleSubmit form)
            = Part000.mkForm EmptyString EmptyString EmptyString EmptyString
                             EmptyString
            /\ fst (fst (Part000.handleSubmit form)) = "Brief sent"%string)).
Proof.
  split; intros [n em c b m]; cbn [App.email App.message Part000.email
                                    Part000.message].
  - unfold App.handleSubmit, App.not_. cbn [App.email App.message].
    destruct (String.eqb_spec em EmptyString),
             (String.eqb_spec m EmptyString); cbn;
      split; intros; try tauto; try (split; reflexivity).
  - unfold Part000.handleSubmit, Part000.not_.
    cbn [Part000.email Part000.message].
    destruct (String.eqb_spec em EmptyString),
             (String.eqb_spec m EmptyString); cbn;
      split; intros; try tauto; try (split; reflexivity).
Qed.

Lemma handleSubmit_presence_check_witness :
  snd (App.handleSubmit
         (App.mkForm "Ada" EmptyString "Acme" "10k" "Hello"))
  = App.mkForm "Ada" EmptyString "Acme" "10k" "Hello"
  /\ snd (Part000.handleSubmit
            (Part000.mkForm "Ada" "ada@acme.io" "Acme" "10k" "Hello"))
     = Part000.mkForm EmptyString EmptyString EmptyString EmptyString
                      EmptyString.
Proof.
  split.
  - apply (proj1 (proj1 handleSubmit_presence_check
                    (App.mkForm "Ada" EmptyString "Acme" "10k" "Hello"))).
    left. reflexivity.
  - apply (proj2 (proj2 handleSubmit_presence_check
                    (Part000.mkForm "Ada" "ada@acme.io" "Acme" "10k"
                                    "Hello"))).
    + discriminate.
    + discriminate.
Defined.

(** ** Layout helpers *)

(** Turn the outcome of the comparisons met so far into facts on [Q]. *)
Ltac layout_cases :=
  unfold Qltb, Math_max, Math_min,
    Page.MOBILE_BREAKPOINT, Page.TABLET_BREAKPOINT, Page.MIN_WIDTH,
    Page.MAX_WIDTH in *;
  repeat match goal with
    | |- context [Qle_bool ?a ?b] => destruct (Qle_bool a b) eqn:?
    end;
  cbn [negb andb orb] in *; qfacts.

(** X1. [scaleFont] of [src/App.tsx] keeps a non-negative size between 85%
    and 120% of itself, except that below a width of 380 the result is
    raised to 10 when it would be smaller. *)
Theorem scaleFont_bounds size width :
  0 <= size ->
  0.85 * size <= Page.scaleFont size width
  /\ (Page.scaleFont size width <= 1.2 * size
      \/ (width < 380 /\ Page.scaleFont size width == 10))
  /\ (width < 380 -> 10 <= Page.scaleFont size width).
Proof.
  intros Hs. unfold Page.scaleFont. cbv zeta. layout_cases.
  all: repeat split; intros; try lra.
  all: try (left; lra); try (right; split; lra).
Qed.

Lemma scaleFont_bounds_witness :
  0.85 * 16 <= Page.scaleFont 16 400
  /\ (Page.scaleFont 16 400 <= 1.2 * 16
      \/ (400 < 380 /\ Page.scaleFont 16 400 == 10))
  /\ (400 < 380 -> 10 <= Page.scaleFont 16 400).
Proof.
  apply (scaleFont_bounds 16 400). unfold Qle; simpl; lia.
Defined.

(** X2. For a size of at least 200/19 (where 95% of the size reaches the
    floor of 10) [scaleFont] never decreases as the window widens; for a
    smaller positive size it does: the floor applies only below 380, so
    the font is smaller at width 380 than at width 379. *)
Theorem scaleFont_monotone_in_width :
  (forall size w1 w2, (200 # 19) <= size -> w1 <= w2 ->
     Page.scaleFont size w1 <= Page.scaleFont size w2)
  /\ (forall size, 0 <= size -> size < (200 # 19) ->
        Page.scaleFont size 380 < Page.scaleFont size 379).
Proof.
  split.
  - intros size w1 w2 Hs Hw. unfold Page.scaleFont. cbv zeta.
    layout_cases; lra.
  - intros size H0 Hs. unfold Page.scaleFont. cbv zeta.
    change (Qltb 380 380) with false. change (Qltb 380 480) with true.
    change (Qltb 379 380) with true. cbv iota.
    layout_cases; lra.
Qed.

Lemma scaleFont_monotone_in_width_witness :
  Page.scaleFont 16 379 <= Page.scaleFont 16 380
  /\ Page.scaleFont 8 380 < Page.scaleFont 8 379.
Proof.
  split.
  - apply (proj1 scaleFont_monotone_in_width 16 379 380);
      unfold Qle; simpl; lia.
  - apply (proj2 scaleFont_monotone_in_width 8).
    + unfold Qle; simpl; lia.
    + reflexivity.
Defined.

(** X3. The two variants of [scaleFont] agree for widths in [480, 768) and
    in [1024, 1280); for a non-negative size the one of [src/App.tsx] is
    the larger below 480 and the smaller from 768 on. *)
Theorem scaleFont_variants size width :
  0 <= size ->
  ((480 <= width /\ width < 768) \/ (1024 <= width /\ width < 1280) ->
   Page.scaleFont size width == Page000.scaleFont size width)
  /\ (width < 480 ->
      Page000.scaleFont size width <= Page.scaleFont size width)
  /\ (768 <= width ->
      Page.scaleFont size width <= Page000.scaleFont size width).
Proof.
  intros Hs. unfold Page.scaleFont, Page000.scaleFont. cbv zeta.
  layout_cases; repeat split; intros; try lra.
  all: match goal with H : _ \/ _ |- _ => destruct H end; lra.
Qed.

Lemma scaleFont_variants_witness :
  Page.scaleFont 16 600 == Page000.scaleFont 16 600.
Proof.
  apply (proj1 (scaleFont_variants 16 600 ltac:(unfold Qle; simpl; lia))).
  left. split; [unfold Qle; simpl; lia | reflexivity].
Defined.

(** X4. In [src/App.tsx] every width falls in exactly one of the classes
    mobile, tablet and desktop; [responsiveValue] returns the value of
    that class, the burger button is rendered exactly on mobile widths
    and the centre navigation exactly on the others. *)
Theorem breakpoints_partition (T : Type) (mobile tablet desktop : T) width :
  ((Page.isMobile width = true /\ Page.isTablet width = false
    /\ Page.isDesktop width = false)
   \/ (Page.isMobile width = false /\ Page.isTablet width = true
       /\ Page.isDesktop width = false)
   \/ (Page.isMobile width = false /\ Page.isTablet width = false
       /\ Page.isDesktop width = true))
  /\ Page.responsiveValue mobile tablet desktop width
     = (if Page.isMobile width then mobile
        else if Page.isTablet width then tablet else desktop)
  /\ Page.shows_burger width = Page.isMobile width
  /\ Page.shows_centerNav width = negb (Page.isMobile width).
Proof.
  unfold Page.shows_burger, Page.shows_centerNav, Page.responsiveValue,
    Page.isMobile, Page.isTablet, Page.isDesktop.
  layout_cases; repeat split; auto; try lra.
Qed.

(** X5. The variant [src/unnamed/part_000] also puts every width in
    exactly one class, and the two variants classify every width alike
    except the width 768 itself, which is tablet in [src/App.tsx] and
    mobile in the variant. *)
Theorem breakpoints_variants width :
  ((Page000.isMobile width = true /\ Page000.isTablet width = false
    /\ Page000.isDesktop width = false)
   \/ (Page000.isMobile width = false /\ Page000.isTablet width = true
       /\ Page000.isDesktop width = false)
   \/ (Page000.isMobile width = false /\ Page000.isTablet width = false
       /\ Page000.isDesktop width = true))
  /\ (~ width == 768 ->
      Page.isMobile width = Page000.isMobile width
      /\ Page.isTablet width = Page000.isTablet width
      /\ Page.isDesktop width = Page000.isDesktop width)
  /\ (width == 768 ->
      Page.isTablet width = true /\ Page000.isMobile width = true).
Proof.
  unfold Page.isMobile, Page.isTablet, Page.isDesktop,
    Page000.isMobile, Page000.isTablet, Page000.isDesktop.
  layout_cases; repeat split; intros; auto; try lra.
  all: try (exfalso; match goal with H : ~ _ |- _ => apply H end; lra).
Qed.

Lemma breakpoints_variants_witness :
  Page.isTablet 768 = true /\ Page000.isMobile 768 = true.
Proof.
  apply (proj2 (proj2 (breakpoints_variants 768))). reflexivity.
Defined.

(** X6. The hero of [src/App.tsx]: whatever the window, [heroHeight] is at
    most 700 and at most 90% of a non-negative window height, and the
    [minHeight] rendered beside it lies between 400 and 700 and is never
    below [heroHeight]. *)
Theorem heroHeight_bounds width height :
  Page.heroHeight width height <= 700
  /\ (0 <= height -> Page.heroHeight width height <= 0.9 * height)
  /\ 400 <= Page.hero_minHeight width height
  /\ Page.hero_minHeight width height <= 700
  /\ Page.heroHeight width height <= Page.hero_minHeight width height.
Proof.
  unfold Page.hero_minHeight, Page.heroHeight, Page.responsiveValue.
  layout_cases; repeat split; intros; lra.
Qed.

Lemma heroHeight_bounds_witness :
  Page.heroHeight 390 844 <= 0.9 * 844.
Proof.
  apply (proj1 (proj2 (heroHeight_bounds 390 844))). unfold Qle; simpl; lia.
Defined.

(** ** The hero carousel *)

Lemma handleNextSlide_range slides i :
  (0 <= i < Z.of_nat (List.length slides))%Z ->
  (0 <= Page.handleNextSlide slides i < Z.of_nat (List.length slides))%Z.
Proof.
  intros H. unfold Page.handleNextSlide.
  rewrite Z.rem_mod_nonneg by lia. apply Z.mod_pos_bound. lia.
Qed.

Lemma handlePrevSlide_range slides i :
  (0 <= i < Z.of_nat (List.length slides))%Z ->
  (0 <= Page.handlePrevSlide slides i < Z.of_nat (List.length slides))%Z.
Proof.
  intros H. unfold Page.handlePrevSlide.
  destruct (Z.eqb_spec i 0%Z); lia.
Qed.

Lemma slide_event_range slides i ev :
  Page.dot_exists slides ev = true ->
  (0 <= i < Z.of_nat (List.length slides))%Z ->
  (0 <= Page.slide_event slides i ev < Z.of_nat (List.length slides))%Z.
Proof.
  intros Hd H. destruct ev as [| | |index]; cbn [Page.slide_event].
  - now apply handleNextSlide_range.
  - now apply handlePrevSlide_range.
  - now apply handleNextSlide_range.
  - cbn in Hd. apply Nat.ltb_lt in Hd. lia.
Qed.

(** X7. Whatever the sequence of autoplay ticks, arrow presses and presses
    on existing dots, [activeSlideIndex] (initially 0) stays an index of
    the list of slides, so [currentSlide] is always defined. *)
Theorem activeSlideIndex_in_range slides evs :
  slides <> [] ->
  forallb (Page.dot_exists slides) evs = true ->
  (0 <= fold_left (Page.slide_event slides) evs 0
     < Z.of_nat (List.length slides))%Z
  /\ Page.currentSlide slides (fold_left (Page.slide_event slides) evs 0%Z)
     <> None.
Proof.
  intros Hne Hevs.
  assert (H0 : (0 <= 0 < Z.of_nat (List.length slides))%Z).
  { destruct slides; [congruence|cbn [List.length]; lia]. }
  assert (Hr : forall i, (0 <= i < Z.of_nat (List.length slides))%Z ->
               (0 <= fold_left (Page.slide_event slides) evs i
                 < Z.of_nat (List.length slides))%Z).
  { induction evs as [|ev evs IH]; intros i Hi; [exact Hi|].
    cbn [forallb] in Hevs. apply andb_prop in Hevs as (Hev & Hevs).
    cbn [fold_left]. apply IH; auto. now apply slide_event_range. }
  specialize (Hr 0%Z H0). split; [exact Hr|].
  unfold Page.currentSlide.
  destruct (Z.ltb_spec (fold_left (Page.slide_event slides) evs 0%Z) 0%Z);
    [lia|].
  apply nth_error_Some. lia.
Qed.

Lemma activeSlideIndex_in_range_witness :
  Page.currentSlide Page.HERO_SLIDES
    (fold_left (Page.slide_event Page.HERO_SLIDES)
       [Page.PressPrev; Page.Autoplay; Page.PressDot 2; Page.PressNext] 0%Z)
  <> None.
Proof.
  apply (activeSlideIndex_in_range Page.HERO_SLIDES
           [Page.PressPrev; Page.Autoplay; Page.PressDot 2; Page.PressNext]).
  - discriminate.
  - reflexivity.
Defined.

Lemma handleNextSlide_iter slides k : forall i,
  (0 <= i < Z.of_nat (List.length slides))%Z ->
  Nat.iter k (Page.handleNextSlide slides) i
  = ((i + Z.of_nat k) mod Z.of_nat (List.length slides))%Z.
Proof.
  induction k as [|k IH]; intros i Hi.
  - change (Nat.iter 0 (Page.handleNextSlide slides) i) with i.
    change (Z.of_nat 0) with 0%Z. rewrite Z.add_0_r. symmetry.
    apply Z.mod_small. exact Hi.
  - rewrite Nat.iter_succ, IH by exact Hi.
    unfold Page.handleNextSlide.
    assert (Hm : (0 <= (i + Z.of_nat k) mod Z.of_nat (List.length slides)
                 < Z.of_nat (List.length slides))%Z)
      by (apply Z.mod_pos_bound; lia).
    rewrite Z.rem_mod_nonneg by lia.
    rewrite Z.add_mod_idemp_l by lia. f_equal. lia.
Qed.

(** X8. On the indices of the list, the previous-slide and next-slide
    updaters undo each other, and pressing next as many times as there
    are slides comes back to the slide one started from. *)
Theorem slide_arrows_inverse slides i :
  (0 <= i < Z.of_nat (List.length slides))%Z ->
  Page.handlePrevSlide slides (Page.handleNextSlide slides i) = i
  /\ Page.handleNextSlide slides (Page.handlePrevSlide slides i) = i
  /\ Nat.iter (List.length slides) (Page.handleNextSlide slides) i = i.
Proof.
  intros Hi. split; [|split].
  - unfold Page.handlePrevSlide, Page.handleNextSlide.
    rewrite Z.rem_mod_nonneg by lia.
    destruct (Z.eq_dec (i + 1)%Z (Z.of_nat (List.length slides))) as [E|E].
    + rewrite E, Z.mod_same by lia. cbn. lia.
    + rewrite Z.mod_small by lia.
      destruct (Z.eqb_spec (i + 1)%Z 0%Z); lia.
  - unfold Page.handlePrevSlide, Page.handleNextSlide.
    destruct (Z.eqb_spec i 0%Z) as [->|E].
    + replace (Z.of_nat (List.length slides) - 1 + 1)%Z
        with (Z.of_nat (List.length slides)) by lia.
      apply Z.rem_same. lia.
    + replace (i - 1 + 1)%Z with i by lia.
      rewrite Z.rem_mod_nonneg by lia. apply Z.mod_small. lia.
  - rewrite handleNextSlide_iter by exact Hi.
    rewrite <- (Z.mul_1_l (Z.of_nat (List.length slides))) at 1.
    rewrite Z.mod_add by lia. apply Z.mod_small. lia.
Qed.

Lemma slide_arrows_inverse_witness :
  Page.handlePrevSlide Page.HERO_SLIDES
    (Page.handleNextSlide Page.HERO_SLIDES 2%Z) = 2%Z
  /\ Page.handleNextSlide Page.HERO_SLIDES
       (Page.handlePrevSlide Page.HERO_SLIDES 2%Z) = 2%Z
  /\ Nat.iter (List.length Page.HERO_SLIDES)
       (Page.handleNextSlide Page.HERO_SLIDES) 2%Z = 2%Z.
Proof.
  apply (slide_arrows_inverse Page.HERO_SLIDES 2%Z). cbn. lia.
Defined.

(** ** The contact form *)

(** X9. [handleFormChange] writes one field: the field reads back the
    value written, every other field keeps its value, a second write to
    the same field replaces the first, and writes to different fields
    commute. *)
Theorem handleFormChange_laws f g v w form :
  Page.field f (Page.handleFormChange f v form) = v
  /\ (f <> g ->
      Page.field g (Page.handleFormChange f v form) = Page.field g form)
  /\ Page.handleFormChange f w (Page.handleFormChange f v form)
     = Page.handleFormChange f w form
  /\ (f <> g ->
      Page.handleFormChange f v (Page.handleFormChange g w form)
      = Page.handleFormChange g w (Page.handleFormChange f v form)).
Proof.
  destruct form as [n em c b m].
  repeat split; intros; destruct f, g; try reflexivity; congruence.
Qed.

Lemma handleFormChange_laws_witness :
  Page.field Page.f_email
    (Page.handleFormChange Page.f_name "Ada"
       (App.mkForm EmptyString "ada@acme.io" EmptyString EmptyString
                   EmptyString))
  = "ada@acme.io"%string.
Proof.
  apply (proj1 (proj2 (handleFormChange_laws Page.f_name Page.f_email
                         "Ada"%string EmptyString
                         (App.mkForm EmptyString "ada@acme.io" EmptyString
                                     EmptyString EmptyString)))).
  discriminate.
Defined.

(** X10. Submitting twice in a row equals submitting once, and the second
    submit always shows the "Missing info" alert; what is typed into the
    name, company or budget field never changes which alert a submit
    shows. *)
Theorem handleSubmit_twice form :
  snd (App.handleSubmit (snd (App.handleSubmit form)))
  = snd (App.handleSubmit form)
  /\ fst (fst (App.handleSubmit (snd (App.handleSubmit form))))
     = "Missing info"%string
  /\ (forall f v, f <> Page.f_email -> f <> Page.f_message ->
        fst (App.handleSubmit (Page.handleFormChange f v form))
        = fst (App.handleSubmit form)).
Proof.
  destruct form as [n em c b m].
  unfold App.handleSubmit, App.not_. cbn [App.email App.message].
  repeat split.
  - destruct (String.eqb em EmptyString) eqn:E1,
             (String.eqb m EmptyString) eqn:E2; cbn;
      rewrite ?E1, ?E2; reflexivity.
  - destruct (String.eqb em EmptyString) eqn:E1,
             (String.eqb m EmptyString) eqn:E2; cbn;
      rewrite ?E1, ?E2; reflexivity.
  - intros f v H1 H2. destruct f; try congruence; cbn;
      destruct (String.eqb em EmptyString || String.eqb m EmptyString);
      reflexivity.
Qed.

Lemma handleSubmit_twice_witness :
  fst (App.handleSubmit
         (Page.handleFormChange Page.f_budget "10k"
            (App.mkForm "Ada" "ada@acme.io" EmptyString EmptyString "Hi")))
  = fst (App.handleSubmit
           (App.mkForm "Ada" "ada@acme.io" EmptyString EmptyString "Hi")).
Proof.
  apply (proj2 (proj2 (handleSubmit_twice
                         (App.mkForm "Ada" "ada@acme.io" EmptyString
                                     EmptyString "Hi")))
           Page.f_budget "10k"%string); discriminate.
Defined.

(** ** Section positions and navigation *)

(** X11. [scrollToSection] scrolls to the position last recorded for the
    section by [handleSectionLayout], less 80% of the header height (48,
    56 or 64, by width class) in [src/App.tsx] and less 80 in the
    variant; recording one section leaves the others as they were; a
    section never measured counts as position 0, so the offset asked for
    is negative; without an attached scroll view nothing is asked; and
    in every case both menus are closed afterwards. *)
Theorem scrollToSection_target key y width sectionPositions nav :
  fst (Page.scrollToSection key width true
         (Page.handleSectionLayout key y sectionPositions) nav)
  = Some (y - Page.headerHeight width * 0.8)
  /\ fst (Page000.scrollToSection key true
            (Page.handleSectionLayout key y sectionPositions) nav)
     = Some (y - 80)
  /\ (forall k, k <> key ->
        Page.handleSectionLayout key y sectionPositions k
        = sectionPositions k)
  /\ (sectionPositions key = None ->
      exists target,
        fst (Page.scrollToSection key width true sectionPositions nav)
        = Some target
        /\ - (64) <= target /\ target <= - (48))
  /\ 48 <= Page.headerHeight width * 0.8 <= 64
  /\ (forall attached,
        snd (Page.scrollToSection key width attached sectionPositions nav)
        = Page.mkNav false None
        /\ snd (Page000.scrollToSection key attached sectionPositions nav)
           = Page.mkNav false None)
  /\ fst (Page.scrollToSection key width false sectionPositions nav) = None.
Proof.
  assert (Hh : 48 <= Page.headerHeight width * 0.8 <= 64).
  { unfold Page.headerHeight, Page.responsiveValue. layout_cases; lra. }
  assert (Hk : Page.SectionKey_eqb key key = true) by (destruct key; reflexivity).
  unfold Page.scrollToSection, Page000.scrollToSection,
    Page.handleSectionLayout.
  cbn [fst snd]. rewrite Hk.
  repeat split; auto; try apply Hh.
  - intros k Hne. destruct k, key; try reflexivity; congruence.
  - intros ->. eexists. split; [reflexivity|]. lra.
Qed.

Lemma scrollToSection_target_witness :
  exists target,
    fst (Page.scrollToSection Page.contact 390 true Page.no_positions
           (Page.mkNav true None))
    = Some target
    /\ - (64) <= target /\ target <= - (48).
Proof.
  apply (proj1 (proj2 (proj2 (proj2
           (scrollToSection_target Page.contact 0 390 Page.no_positions
              (Page.mkNav true None)))))).
  reflexivity.
Defined.

(** ** The portfolio filter *)

Lemma PortfolioCategory_eqb_eq a b :
  Page.PortfolioCategory_eqb a b = true <-> a = b.
Proof. destruct a, b; cbn; split; congruence. Qed.

(** X12. [filteredPortfolio] keeps exactly the items of the list that the
    filter accepts (all of them under "all", those of the chosen category
    otherwise): it adds none, keeps no duplicate that was not there, and
    filtering a second time by the same filter changes nothing. *)
Theorem filteredPortfolio_spec portfolioFilter items :
  (forall x,
     In x (Page.filteredPortfolio portfolioFilter items)
     <-> In x items
         /\ (portfolioFilter = Page.cat_all
             \/ Page.category x = portfolioFilter))
  /\ Page.filteredPortfolio Page.cat_all items = items
  /\ (List.length (Page.filteredPortfolio portfolioFilter items)
      <= List.length items)%nat
  /\ (NoDup items -> NoDup (Page.filteredPortfolio portfolioFilter items))
  /\ Page.filteredPortfolio portfolioFilter
       (Page.filteredPortfolio portfolioFilter items)
     = Page.filteredPortfolio portfolioFilter items.
Proof.
  unfold Page.filteredPortfolio.
  destruct (Page.PortfolioCategory_eqb portfolioFilter Page.cat_all) eqn:E.
  - apply PortfolioCategory_eqb_eq in E. subst. cbn.
    repeat split; auto; tauto.
  - assert (Hne : portfolioFilter <> Page.cat_all).
    { intros ->. discriminate. }
    split; [|split; [|split; [|split]]].
    + intros x. rewrite filter_In, PortfolioCategory_eqb_eq.
      split; [intros (H1 & H2); auto|].
      intros (H1 & [H2|H2]); [congruence|auto].
    + reflexivity.
    + apply filter_length_le.
    + apply NoDup_filter.
    + induction items as [|x items IH]; cbn; auto.
      destruct (Page.PortfolioCategory_eqb (Page.category x) portfolioFilter)
        eqn:Ex; cbn; rewrite ?Ex, IH; reflexivity.
Qed.

Lemma filteredPortfolio_spec_witness :
  NoDup (Page.filteredPortfolio Page.cat_mobile Page.PORTFOLIO_ITEMS).
Proof.
  apply (proj1 (proj2 (proj2 (proj2
           (filteredPortfolio_spec Page.cat_mobile Page.PORTFOLIO_ITEMS))))).
  repeat constructor; cbn; intuition discriminate.
Defined.

(** X13. When no item carries the category "all", the three category
    filters split the list: their result lengths add up to the length of
    the list.  For [PORTFOLIO_ITEMS] no filter chip gives an empty grid:
    each category holds one item and "all" holds the three. *)
Theorem filteredPortfolio_partition :
  (forall items,
     Forall (fun i => Page.category i <> Page.cat_all) items ->
     (List.length (Page.filteredPortfolio Page.cat_web items)
      + List.length (Page.filteredPortfolio Page.cat_mobile items)
      + List.length (Page.filteredPortfolio Page.cat_ecommerce items)
      = List.length items)%nat)
  /\ map Page.id (Page.filteredPortfolio Page.cat_all Page.PORTFOLIO_ITEMS)
     = [1; 2; 3]%Z
  /\ map Page.id (Page.filteredPortfolio Page.cat_web Page.PORTFOLIO_ITEMS)
     = [1]%Z
  /\ map Page.id
       (Page.filteredPortfolio Page.cat_mobile Page.PORTFOLIO_ITEMS)
     = [2]%Z
  /\ map Page.id
       (Page.filteredPortfolio Page.cat_ecommerce Page.PORTFOLIO_ITEMS)
     = [3]%Z.
Proof.
  split; [|repeat split; reflexivity].
  intros items H. unfold Page.filteredPortfolio. cbn [Page.PortfolioCategory_eqb].
  induction H as [|x items Hx _ IH]; [reflexivity|].
  cbn [filter List.length].
  destruct (Page.category x); try congruence; cbn; lia.
Qed.

Lemma filteredPortfolio_partition_witness :
  (List.length (Page.filteredPortfolio Page.cat_web Page.PORTFOLIO_ITEMS)
   + List.length (Page.filteredPortfolio Page.cat_mobile Page.PORTFOLIO_ITEMS)
   + List.length
       (Page.filteredPortfolio Page.cat_ecommerce Page.PORTFOLIO_ITEMS)
   = List.length Page.PORTFOLIO_ITEMS)%nat.
Proof.
  apply (proj1 filteredPortfolio_partition Page.PORTFOLIO_ITEMS).
  repeat constructor; discriminate.
Defined.

(** ** More on the reveal hook *)

Lemma commit_latched e p s :
  isVisible s = true ->
  isVisible (commit hook e p 2 s) = true
  /\ animValue (commit hook e p 2 s) = animValue s.
Proof.
  intros Hv. rewrite commit2_cases.
  destruct (refresh_visible e p s Hv) as (Rv & Ra & _).
  destruct (refresh_visible e p _ Rv) as (Rv' & Ra' & _).
  repeat match goal with |- context [if ?c then _ else _] => destruct c end;
    split; congruence.
Qed.

Lemma events_of_fixed_window i gevs :
  forallb no_resize gevs = true -> fixed_window (events_of i gevs) = true.
Proof.
  induction gevs as [|gev gevs IH]; [reflexivity|].
  cbn [forallb events_of]. intros H. apply andb_prop in H as (H1 & H2).
  destruct gev as [ev|j ev]; cbn [addressed].
  - cbn [fixed_window forallb]. cbn in H1. rewrite H1. now apply IH.
  - destruct (Nat.eqb j i); [|now apply IH].
    cbn [fixed_window forallb]. cbn in H1. rewrite H1. now apply IH.
Qed.

(** X14. [handleScroll] sets [scrolled] exactly when the offset exceeds
    100 and notifies every view at once.  On the native platform, in a
    window of constant height [H], after a scroll to offset [v] no view
    that was passed the scroll value and is measured at a position [y]
    with [y + 0.1 * H <= v + H] is left hidden, whatever the other views
    of the group are doing. *)
Theorem handleScroll_reveals {A : Type} e t H (children : list (Props * A))
    gevs v i p s' y :
  OS e = native ->
  forallb no_resize gevs = true ->
  nth_error
    (snd (Page.handleScroll e v
            (group_run hook e (group_mount hook e t H children) gevs))) i
  = Some (p, s') ->
  scrollY p = true ->
  layoutY s' = Some y ->
  y + 0.1 * H <= v + H ->
  isVisible s' = true
  /\ (fst (Page.handleScroll e v
             (group_run hook e (group_mount hook e t H children) gevs))
      = true <-> 100 < v).
Proof.
  intros Hos Hev Hn Hsc Hy Hle. split.
  2:{ unfold Page.handleScroll, Qltb. cbn [fst].
      destruct (Qle_bool v 100) eqn:Hq; qfacts; cbn;
        split; intros; try discriminate; try reflexivity; lra. }
  unfold Page.handleScroll in Hn. cbn [snd] in Hn.
  unfold group_step in Hn. rewrite map_index_nth in Hn. cbn [addressed] in Hn.
  destruct (nth_error (group_run hook e (group_mount hook e t H children)
                         gevs) i) as [[p0 s]|] eqn:Hg; [|discriminate].
  cbn [option_map fst snd] in Hn. injection Hn as <- <-.
  assert (Hrun : s = run hook e p0 (mount hook e p0 t H) (events_of i gevs)).
  { destruct (nth_error children i) as [c|] eqn:Hc.
    - assert (Hm : nth_error (group_mount hook e t H children) i
                   = Some (fst c, mount hook e (fst c) t H)).
      { unfold group_mount. rewrite nth_error_map, Hc. reflexivity. }
      rewrite (group_run_nth hook e gevs _ _ _ Hm) in Hg.
      cbn [fst snd] in Hg. now injection Hg as <- <-.
    - exfalso. apply nth_error_None in Hc.
      assert (Hsome : nth_error (group_run hook e
                                    (group_mount hook e t H children) gevs) i
                      <> None) by congruence.
      apply nth_error_Some in Hsome.
      assert (Hlen : forall l g0,
                 List.length (group_run hook e g0 l) = List.length g0).
      { clear. induction l as [|gev l IH]; intros g0; [reflexivity|].
        unfold group_run in *. cbn [fold_left]. rewrite IH.
        unfold group_step. generalize O.
        induction g0 as [|x g0 IHg]; intros k; cbn; auto. }
      rewrite Hlen in Hsome. unfold group_mount in Hsome.
      rewrite length_map in Hsome. lia. }
  assert (HI : Inv e p0 s) by (rewrite Hrun; apply run_Inv, mount_Inv).
  assert (HS : sized H s).
  { rewrite Hrun. apply run_sized; auto using mount_Inv, mount_sized.
    now apply events_of_fixed_window. }
  destruct (isVisible s) eqn:Hv.
  { now apply step_latched. }
  destruct (layoutY s) as [y0|] eqn:Hy0.
  - destruct (step_scroll e p0 s y0 v HI Hos Hsc Hv Hy0) as (H' & He & Hst).
    destruct HS as (_ & HL). apply HL in He as ->.
    rewrite Hst in *.
    destruct (Qle_bool (y0 + H * 0.1) (v + H)) eqn:Hq; [reflexivity|].
    rewrite Hy0 in Hy. injection Hy as ->. qfacts. lra.
  - destruct (step_scroll_unmeasured e p0 s v HI Hos Hsc Hy0) as (_ & Hst).
    rewrite Hst in Hy. congruence.
Qed.

Lemma handleScroll_reveals_witness :
  isVisible
    (step hook (mkEnv native true) (mkProps 100 true)
       (run hook (mkEnv native true) (mkProps 100 true)
          (mount hook (mkEnv native true) (mkProps 100 true) 0 800)
          [Layout 1200])
       (Scroll 500)) = true.
Proof.
  refine (proj1 (handleScroll_reveals (A := unit) (mkEnv native true) 0 800
                   (App.StaggeredScrollAnimation (Some 100) true [tt; tt])
                   [Child 0 (Layout 1000); Child 1 (Layout 1200)] 500 1
                   (mkProps 100 true) _ 1200
                   eq_refl eq_refl eq_refl eq_refl eq_refl _)).
  unfold Qle; simpl; lia.
Defined.

Lemma observerCallback_none p r entries s :
  intersecting entries = O -> App.observerCallback p r entries s = s.
Proof.
  unfold App.observerCallback, intersecting.
  induction entries as [|[|] entries IH]; cbn; intros H; auto; discriminate.
Qed.

(** One intersecting entry met by a callback of a hidden render. *)
Lemma observer_entry_timing p r s :
  r_isVisible r = false ->
  (effect s = Idle \/ exists b, effect s = Observing b) ->
  animValue (observer_disconnect (App.animateIn p r s))
  = mkTiming (now s) (animValue_at s (now s)) (delay p) :: animValue s.
Proof.
  intros Hr He. destruct s as [v ly an c ef t h].
  unfold App.animateIn. rewrite Hr.
  unfold observer_disconnect, Animated_timing_start, setIsVisible.
  cbn in He. destruct He as [->|[b ->]]; destruct v; reflexivity.
Qed.

Lemma observerCallback_timings p r entries : forall s,
  r_isVisible r = false ->
  (effect s = Idle \/ exists b, effect s = Observing b) ->
  List.length (animValue (App.observerCallback p r entries s))
  = (intersecting entries + List.length (animValue s))%nat
  /\ (Forall (fun a => startedAt a = now s /\ timingDelay a = delay p)
             (animValue s) ->
      Forall (fun a => startedAt a = now s /\ timingDelay a = delay p)
             (animValue (App.observerCallback p r entries s))).
Proof.
  unfold App.observerCallback, intersecting.
  induction entries as [|[|] entries IH]; intros s Hr He; cbn [fold_left filter].
  - split; auto.
  - pose proof (observer_entry p r s Hr He) as F.
    pose proof (observer_entry_timing p r s Hr He) as T.
    destruct F as (_ & _ & Fe & _ & _ & Fn & _).
    destruct (IH _ Hr (or_introl Fe)) as (IHl & IHf).
    rewrite Fn in IHf. split.
    + rewrite IHl, T. cbn [List.length]. lia.
    + intros Hall. apply IHf. rewrite T. constructor; auto.
  - now apply IH.
Qed.

Lemma web_unattached_step e p s ev :
  OS e = web -> viewRef_current e = false ->
  Inv e p s -> isVisible s = false ->
  isVisible (step hook e p s ev) = false.
Proof.
  intros Hos Href HI Hv.
  apply (step_preserves (fun s' => isVisible s' = false /\ animValue s' = [])
           e p s ev).
  - destruct ev as [y|x|l| |dt|hh].
    3:{ destruct HI as (_ & Hi & Hs & _). unfold installed in Hi.
        rewrite Hos, Href, Hv in Hi. cbn [dispatch]. rewrite Hi.
        split; auto. }
    all: revert Hos Href Hv; dispatch_cases e p s HI; cbn; try discriminate;
      intros _ _ _; split; reflexivity.
  - intros s' (Hv' & Ha').
    destruct (refresh_hidden e p s' Hv' Ha')
      as [(Rv & Ra & _) | (_ & _ & Hn & _)]; [auto|congruence].
Qed.

(** X15. On the web the target is revealed by the observer alone.  If no
    view is attached to [viewRef] when the effect runs, the observer
    observes nothing and no sequence of events ever reveals the target.
    With a view attached, a callback without an intersecting entry
    changes nothing, and a callback with one reveals a hidden target; the
    guard of [animateIn] reads the flag of the render, so such a callback
    starts one timing per intersecting entry, all at the instant of the
    callback and with the hook's delay. *)
Theorem web_observer_path p t h evs :
  (forall ref, ref = false ->
     isVisible (run hook (mkEnv web ref) p (mount hook (mkEnv web ref) p t h)
                    evs) = false)
  /\ (forall entries,
        let e := mkEnv web true in
        let s := run hook e p (mount hook e p t h) evs in
        isVisible s = false ->
        (intersecting entries = O -> step hook e p s (Intersect entries) = s)
        /\ (intersecting entries <> O ->
            isVisible (step hook e p s (Intersect entries)) = true
            /\ List.length (animValue (step hook e p s (Intersect entries)))
               = intersecting entries
            /\ Forall (fun a => startedAt a = now s
                                /\ timingDelay a = delay p)
                 (animValue (step hook e p s (Intersect entries))))).
Proof.
  split.
  - intros ref ->. set (e := mkEnv web false).
    assert (HP : forall s, Inv e p s -> isVisible s = false ->
                 forall ev, isVisible (step hook e p s ev) = false).
    { intros s HI Hv ev. now apply web_unattached_step. }
    revert HP. generalize (mount_Inv e p t h).
    assert (Hm : isVisible (mount hook e p t h) = false).
    { destruct p as [d sc]. reflexivity. }
    revert Hm. generalize (mount hook e p t h).
    induction evs as [|ev evs IH]; intros s Hv HI HP; [exact Hv|].
    rewrite run_cons. apply IH; auto using step_Inv.
  - intros entries e s Hv.
    assert (HI : Inv e p s) by apply run_Inv, mount_Inv.
    pose proof HI as (Hc & Hi & Hs1 & _).
    unfold installed in Hi. cbn in Hi. rewrite Hv in Hi.
    assert (Hr : r_isVisible (closure s) = false) by (rewrite Hc; exact Hv).
    split.
    + intros H0. unfold step. cbn [dispatch]. rewrite Hi.
      cbn [hc_observerCallback hook].
      rewrite observerCallback_none by exact H0.
      now apply commit_settled.
    + intros Hn.
      assert (He : effect s = Idle \/ exists b, effect s = Observing b)
        by eauto.
      destruct (observerCallback_timings p (closure s) entries s Hr He)
        as (Hlen & Hall).
      rewrite (Hs1 Hv) in Hlen, Hall. cbn [List.length] in Hlen.
      rewrite Nat.add_0_r in Hlen. specialize (Hall (Forall_nil _)).
      set (s1 := App.observerCallback p (closure s) entries s) in *.
      assert (Hv1 : isVisible s1 = true).
      { destruct (observerCallback_cases p (closure s) entries s true Hr Hi)
          as [E | F]; [|apply F].
        exfalso. fold s1 in E. rewrite E, (Hs1 Hv) in Hlen.
        cbn in Hlen. congruence. }
      unfold step. cbn [dispatch]. rewrite Hi.
      cbn [hc_observerCallback hook]. fold s1.
      destruct (commit_latched e p s1 Hv1) as (Cv & Ca).
      rewrite Cv, Ca. auto.
Qed.

Lemma web_observer_path_witness :
  List.length
    (animValue
       (step hook (mkEnv web true) (mkProps 0 true)
          (run hook (mkEnv web true) (mkProps 0 true)
             (mount hook (mkEnv web true) (mkProps 0 true) 0 800)
             [Layout 300])
          (Intersect [true; false; true])))
  = 2%nat.
Proof.
  refine (proj1 (proj2 (proj2 (proj2 (web_observer_path (mkProps 0 true) 0 800
                                         [Layout 300])
                                 [true; false; true] eq_refl) _))).
  discriminate.
Defined.

Lemma step_layout_fallback e p s y :
  Inv e p s -> OS e = native -> scrollY p = false -> isVisible s = false ->
  same_layoutY (layoutY s) (Some y) = false ->
  step hook e p s (Layout y)
  = mkState false (Some y) [] (mkRender false (Some y))
            (TimerPending (now s + 80)) (now s) (windowHeight s).
Proof.
  intros H Hos Hsc Hv.
  destruct e as [os ref], p as [d sc], s as [vis ly an [cv cly] ef t h].
  cbn in Hos, Hsc, Hv. subst.
  inv_fields H. destruct Hi as [(due & -> & Hdue)|(_ & ?)]; [|discriminate].
  rewrite Hs1 by reflexivity. cbn [layoutY now windowHeight]. intros Hsame.
  unfold step. cbn [dispatch hc_onLayout hook].
  unfold App.onLayout, setLayoutY. cbn [layoutY]. rewrite Hsame.
  rewrite commit2_cases. commit_eval. reflexivity.
Qed.

(** X16. A layout event that reports the position already held changes
    nothing, on every path.  On the fallback path (native, no scroll
    value) a layout event that changes the position of a hidden target
    re-runs the effect, which clears the pending timer and sets a new one
    due 80 ms after that event: the timer callback arriving less than
    80 ms later finds nothing due and the target stays hidden. *)
Theorem fallback_rearmed_by_layout e p t h evs y :
  let s := run hook e p (mount hook e p t h) evs in
  (same_layoutY (layoutY s) (Some y) = true ->
   step hook e p s (Layout y) = s)
  /\ (OS e = native -> scrollY p = false -> isVisible s = false ->
      same_layoutY (layoutY s) (Some y) = false ->
      effect (step hook e p s (Layout y)) = TimerPending (now s + 80)
      /\ forall dt, 0 <= dt -> dt < 80 ->
           isVisible (run hook e p s [Layout y; Advance dt; TimerFires])
           = false).
Proof.
  intros s.
  assert (HI : Inv e p s) by apply run_Inv, mount_Inv.
  split; [now apply step_layout_same|].
  intros Hos Hsc Hv Hsame.
  pose proof (step_layout_fallback e p s y HI Hos Hsc Hv Hsame) as E.
  split; [now rewrite E|].
  intros dt H0 H80.
  pose proof (step_Inv e p s (Layout y) HI) as HI1.
  rewrite run_cons, run_cons. rewrite (step_advance e p _ dt HI1).
  rewrite E in *.
  assert (Hq : Qle_bool 0 dt = true) by now apply Qle_bool_iff.
  rewrite Hq. cbn [run fold_left].
  unfold step. cbn [dispatch set_now effect now].
  assert (Hd : Qle_bool (now s + 80) (now s + dt) = false).
  { destruct (Qle_bool (now s + 80) (now s + dt)) eqn:Hd; [|reflexivity].
    apply Qle_bool_iff in Hd. lra. }
  rewrite Hd. rewrite commit_settled by reflexivity. reflexivity.
Qed.

Lemma fallback_rearmed_by_layout_witness :
  isVisible
    (run hook (mkEnv native true) (mkProps 0 false)
       (run hook (mkEnv native true) (mkProps 0 false)
          (mount hook (mkEnv native true) (mkProps 0 false) 0 800)
          [Advance 70])
       [Layout 300; Advance 20; TimerFires]) = false.
Proof.
  refine (proj2 (proj2 (fallback_rearmed_by_layout (mkEnv native true)
                          (mkProps 0 false) 0 800 [Advance 70] 300)
                   eq_refl eq_refl eq_refl eq_refl) 20 _ _).
  - unfold Qle; simpl; lia.
  - reflexivity.
Defined.

(** ** After the cleanup *)

Lemma step_idle e p s ev :
  settled s -> effect s = Idle -> is_Layout ev = false ->
  settled (step hook e p s ev) /\ effect (step hook e p s ev) = Idle
  /\ isVisible (step hook e p s ev) = isVisible s
  /\ layoutY (step hook e p s ev) = layoutY s
  /\ animValue (step hook e p s ev) = animValue s.
Proof.
  intros Hc He Hev. unfold step.
  assert (Hd : settled (dispatch hook p s ev)
               /\ effect (dispatch hook p s ev) = Idle
               /\ isVisible (dispatch hook p s ev) = isVisible s
               /\ layoutY (dispatch hook p s ev) = layoutY s
               /\ animValue (dispatch hook p s ev) = animValue s).
  { destruct ev as [y|x|l| |dt|hh]; try discriminate; cbn [dispatch];
      rewrite ?He; auto.
    destruct (Qle_bool 0 dt); auto. }
  destruct Hd as (Hc' & Hrest).
  rewrite commit_settled by exact Hc'. auto.
Qed.

(** X17. The cleanup of the effect removes whatever trigger is installed
    (observer, timer or scroll listener) and running it twice is running
    it once.  After it no scroll, observer, timer, clock or resize event
    changes [isVisible], [layoutY] or the timings started on [animValue]:
    a target that was hidden when its effect was cleaned up is never
    revealed by a trigger that was pending. *)
Theorem cleanup_silences e p t h evs evs' :
  forallb (fun ev => negb (is_Layout ev)) evs' = true ->
  let s := run hook e p (mount hook e p t h) evs in
  effect (unmount s) = Idle
  /\ unmount (unmount s) = unmount s
  /\ isVisible (run hook e p (unmount s) evs') = isVisible s
  /\ layoutY (run hook e p (unmount s) evs') = layoutY s
  /\ animValue (run hook e p (unmount s) evs') = animValue s.
Proof.
  intros Hevs s.
  assert (HI : Inv e p s) by apply run_Inv, mount_Inv.
  split; [apply unmount_effect|]. split; [apply unmount_idempotent|].
  assert (Hu : settled (unmount s) /\ effect (unmount s) = Idle
               /\ isVisible (unmount s) = isVisible s
               /\ layoutY (unmount s) = layoutY s
               /\ animValue (unmount s) = animValue s).
  { destruct HI as (Hc & _).
    destruct s as [v ly an c [|b|due|H b] tt hh]; repeat split; exact Hc. }
  revert Hu. generalize (unmount s).
  induction evs' as [|ev evs' IH]; intros u (Hc & He & Hrest); [exact Hrest|].
  cbn [forallb] in Hevs. apply andb_prop in Hevs as (Hev & Hevs).
  rewrite run_cons.
  destruct (step_idle e p u ev Hc He) as (Hc' & He' & Hv' & Hl' & Ha').
  { now destruct (is_Layout ev). }
  apply IH; auto.
  destruct Hrest as (Hv & Hl & Ha). repeat split; congruence.
Qed.

Lemma cleanup_silences_witness :
  isVisible
    (run hook (mkEnv native true) (mkProps 0 false)
       (unmount
          (run hook (mkEnv native true) (mkProps 0 false)
             (mount hook (mkEnv native true) (mkProps 0 false) 0 800)
             [Advance 40]))
       [Advance 40; TimerFires; Advance 1000; TimerFires])
  = false.
Proof.
  exact (proj1 (proj2 (proj2 (cleanup_silences (mkEnv native true)
                                (mkProps 0 false) 0 800 [Advance 40]
                                [Advance 40; TimerFires; Advance 1000;
                                 TimerFires] eq_refl)))).
Defined.

(** ** The style over time *)

Lemma Easing_out_cubic_range x :
  0 <= x -> x <= 1 ->
  0 <= Easing_out cubic x /\ Easing_out cubic x <= 1.
Proof.
  intros H0 H1. unfold Easing_out, cubic.
  assert (Hu : 0 <= 1 - x) by lra.
  assert (Hu1 : 1 - x <= 1) by lra.
  set (u := 1 - x) in *.
  assert (H2 : 0 <= u * u) by (apply Qmult_le_0_compat; auto).
  assert (H3 : u * u <= 1).
  { setoid_replace 1 with (1 * 1) by reflexivity.
    apply Qmult_le_compat_nonneg; split; auto. }
  assert (H4 : 0 <= u * u * u) by (apply Qmult_le_0_compat; auto).
  assert (H5 : u * u * u <= 1).
  { setoid_replace 1 with (1 * 1) by reflexivity.
    apply Qmult_le_compat_nonneg; split; auto. }
  split; lra.
Qed.

Lemma timing_value_range a t :
  fromValue a = 0 ->
  0 <= timing_value a t /\ timing_value a t <= 1.
Proof.
  intros Hf. unfold timing_value. rewrite Hf. cbv zeta.
  set (elapsed := t - startedAt a - Math_max 0 (timingDelay a)).
  destruct (Qle_bool elapsed 0) eqn:H0; [split; lra|].
  destruct (Qle_bool duration elapsed) eqn:H1.
  - change (Easing_out cubic 1) with (1 - (1 - 1) * (1 - 1) * (1 - 1)).
    unfold toValue. split; lra.
  - qfacts. unfold duration, toValue in *.
    destruct (Easing_out_cubic_range (elapsed / 800)) as (E0 & E1).
    + apply Qle_shift_div_l; lra.
    + apply Qle_shift_div_r; lra.
    + split; lra.
Qed.

Lemma Easing_out_cubic_mono x1 x2 :
  0 <= x1 -> x1 <= x2 -> x2 <= 1 ->
  Easing_out cubic x1 <= Easing_out cubic x2.
Proof.
  intros H0 H12 H1. unfold Easing_out, cubic.
  set (u1 := 1 - x1). set (u2 := 1 - x2).
  assert (Hu2 : 0 <= u2) by (unfold u2; lra).
  assert (Hu : u2 <= u1) by (unfold u1, u2; lra).
  assert (Hsq : 0 <= u2 * u2 /\ u2 * u2 <= u1 * u1).
  { split; [apply Qmult_le_0_compat; auto|].
    apply Qmult_le_compat_nonneg; split; auto. }
  assert (Hcu : u2 * u2 * u2 <= u1 * u1 * u1).
  { apply Qmult_le_compat_nonneg; split; auto; apply Hsq. }
  lra.
Qed.

Lemma timing_value_mono a t1 t2 :
  fromValue a = 0 -> t1 <= t2 ->
  timing_value a t1 <= timing_value a t2.
Proof.
  intros Hf Ht.
  destruct (timing_value_range a t2 Hf) as (R0 & R1).
  destruct (timing_value_range a t1 Hf) as (S0 & S1).
  revert R0 R1 S0 S1. unfold timing_value. rewrite Hf. cbv zeta.
  set (e1 := t1 - startedAt a - Math_max 0 (timingDelay a)).
  set (e2 := t2 - startedAt a - Math_max 0 (timingDelay a)).
  assert (He : e1 <= e2) by (unfold e1, e2; lra).
  change (Easing_out cubic 1) with (1 - (1 - 1) * (1 - 1) * (1 - 1)).
  unfold toValue, duration.
  destruct (Qle_bool e1 0) eqn:A1; [intros; lra|].
  destruct (Qle_bool e2 0) eqn:A2; [qfacts; lra|].
  destruct (Qle_bool 800 e2) eqn:B2; [intros; lra|].
  destruct (Qle_bool 800 e1) eqn:B1; [qfacts; lra|].
  qfacts. intros _ _ _ _.
  assert (Hm : Easing_out cubic (e1 / 800) <= Easing_out cubic (e2 / 800)).
  { apply Easing_out_cubic_mono.
    - apply Qle_shift_div_l; lra.
    - apply Qle_shift_div_l; [lra|].
      setoid_replace (e1 / 800 * 800) with e1 by (field). exact He.
    - apply Qle_shift_div_r; lra. }
  lra.
Qed.

(** On the native paths a timing always leaves from 0 with the delay of
    the hook. *)
Lemma native_timing_from_zero e p evs : forall s,
  OS e = native -> Inv e p s ->
  Forall (fun a => fromValue a = 0 /\ timingDelay a = delay p) (animValue s) ->
  Forall (fun a => fromValue a = 0 /\ timingDelay a = delay p)
         (animValue (run hook e p s evs)).
Proof.
  induction evs as [|ev evs IH]; intros s Hos HI HF; [exact HF|].
  rewrite run_cons. apply IH; auto using step_Inv.
  pose (P := fun s' : State =>
               (isVisible s' = false -> animValue s' = [])
               /\ Forall (fun a => fromValue a = 0 /\ timingDelay a = delay p)
                         (animValue s')).
  apply (step_preserves P e p s ev).
  - split; [destruct (dispatch_Inv e p s ev HI) as ((Hs & _) & _); exact Hs|].
    destruct ev as [y|x|l| |dt|hh].
    3:{ destruct (dispatch_intersect e p s l HI) as [-> | (C & _)];
        [auto|congruence]. }
    all: revert Hos HF; dispatch_cases e p s HI; cbn; try discriminate;
      intros _ HF; auto; repeat constructor.
  - intros s' (Hs' & HF'). unfold P.
    destruct (isVisible s') eqn:Hv'.
    + destruct (refresh_visible e p s' Hv') as (Rv & Ra & _).
      rewrite Ra. split; [congruence|exact HF'].
    + destruct (refresh_hidden e p s' Hv' (Hs' eq_refl))
        as [(Rv & Ra & _) | (Rv & Ra & _)]; rewrite Ra.
      * split; auto.
      * split; [congruence|]. repeat constructor.
Qed.

Lemma Math_max_0 d :
  (0 <= d -> Math_max 0 d == d) /\ (d <= 0 -> Math_max 0 d == 0)
  /\ 0 <= Math_max 0 d.
Proof.
  unfold Math_max. destruct (Qle_bool 0 d) eqn:Hq; qfacts;
    repeat split; intros; lra.
Qed.

(** X18. On the native platform the style the hook returns never leaves
    the range between the hidden style (opacity 0, offset 60) and the
    shown one (opacity 1, offset 0), and opacity never decreases as the
    clock advances.  While the target is hidden the style is the hidden
    one.  Once visible, exactly one timing was started, at some instant
    [t0], from 0 and with the hook's delay; with [D] the delay, or 0 when
    the delay is negative (the animation then starts at once), the style
    is the hidden one up to [t0 + D], follows the ease-out cubic
    [1 - (1 - x)^3] of [x = (t - t0 - D) / 800] during the next 800 ms,
    and is the shown one from [t0 + D + 800] on. *)
Theorem style_over_time e p t h evs :
  OS e = native ->
  let s := run hook e p (mount hook e p t h) evs in
  (forall t',
     0 <= opacity (style_at hook s t')
     /\ opacity (style_at hook s t') <= 1
     /\ 0 <= translateY (style_at hook s t')
     /\ translateY (style_at hook s t') <= 60)
  /\ (forall t1 t2, t1 <= t2 ->
        opacity (style_at hook s t1) <= opacity (style_at hook s t2))
  /\ (isVisible s = false ->
      forall t', opacity (style_at hook s t') = 0
                 /\ translateY (style_at hook s t') == 60)
  /\ (isVisible s = true ->
      exists t0, animValue s = [mkTiming t0 0 (delay p)])
  /\ (forall t0, animValue s = [mkTiming t0 0 (delay p)] ->
      let D := Math_max 0 (delay p) in
      (forall t', t' <= t0 + D ->
         opacity (style_at hook s t') == 0
         /\ translateY (style_at hook s t') == 60)
      /\ (forall t', t0 + D <= t' -> t' <= t0 + D + 800 ->
            let x := (t' - t0 - D) / 800 in
            opacity (style_at hook s t')
            == 1 - (1 - x) * (1 - x) * (1 - x))
      /\ (forall t', t0 + D + 800 <= t' ->
            opacity (style_at hook s t') == 1
            /\ translateY (style_at hook s t') == 0))
  /\ ((0 <= delay p -> Math_max 0 (delay p) == delay p)
      /\ (delay p <= 0 -> Math_max 0 (delay p) == 0)).
Proof.
  intros Hos s.
  assert (HI : Inv e p s) by apply run_Inv, mount_Inv.
  assert (HF : Forall (fun a => fromValue a = 0 /\ timingDelay a = delay p)
                      (animValue s)).
  { apply native_timing_from_zero; auto using mount_Inv.
    destruct (mount_Inv e p t h) as (_ & _ & Hs & _).
    rewrite Hs; [constructor|].
    destruct e as [[|] ref], p as [d [|]]; reflexivity. }
  assert (HT : forall p0, translateY (App.animationStyle p0) == 60 * (1 - p0)).
  { intros p0. unfold App.animationStyle, interpolate. cbn. field. }
  assert (HR : forall t', 0 <= animValue_at s t' /\ animValue_at s t' <= 1).
  { intros t'. unfold animValue_at. destruct (animValue s) as [|a l].
    - split; lra.
    - inversion HF as [|? ? (Hf & _) _]; subst. now apply timing_value_range. }
  unfold style_at. cbn [hc_animationStyle hook].
  split; [|split; [|split; [|split; [|split]]]].
  - intros t'. destruct (HR t') as (R0 & R1).
    rewrite HT. cbn [opacity App.animationStyle]. repeat split; lra.
  - intros t1 t2 Ht. cbn [opacity App.animationStyle].
    unfold animValue_at. destruct (animValue s) as [|a l]; [lra|].
    inversion HF as [|? ? (Hf & _) _]; subst. now apply timing_value_mono.
  - intros Hv t'. destruct HI as (_ & _ & Hs & _).
    rewrite HT. cbn [opacity App.animationStyle].
    unfold animValue_at. rewrite (Hs Hv). split; [reflexivity|lra].
  - intros Hv. destruct HI as (_ & _ & Hs1 & Hs2 & Hs3).
    specialize (Hs2 Hv). specialize (Hs3 Hos).
    destruct (animValue s) as [|[t0 f d] [|b l]] eqn:Ea;
      [congruence| |cbn in Hs3; lia].
    inversion HF as [|? ? (Hf & Hd) _]; subst. cbn in Hf, Hd. subst.
    exists t0. reflexivity.
  - intros t0 Ea. cbv zeta. set (D := Math_max 0 (delay p)).
    unfold animValue_at. rewrite Ea.
    unfold timing_value. cbn [startedAt fromValue timingDelay]. fold D.
    change (Easing_out cubic 1) with (1 - (1 - 1) * (1 - 1) * (1 - 1)).
    unfold toValue, duration.
    split; [|split].
    + intros t' Ht'. rewrite HT. cbn [opacity App.animationStyle].
      assert (Hq : Qle_bool (t' - t0 - D) 0 = true)
        by (apply Qle_bool_iff; lra).
      rewrite Hq. split; lra.
    + intros t' Hlo Hhi. set (x := (t' - t0 - D) / 800).
      cbn [opacity App.animationStyle].
      destruct (Qle_bool (t' - t0 - D) 0) eqn:Hq.
      * apply Qle_bool_iff in Hq.
        assert (Hx : x == 0).
        { unfold x. setoid_replace (t' - t0 - D) with 0 by lra.
          reflexivity. }
        rewrite Hx. lra.
      * destruct (Qle_bool 800 (t' - t0 - D)) eqn:Hq2.
        -- apply Qle_bool_iff in Hq2.
           assert (Hx : x == 1).
           { unfold x. setoid_replace (t' - t0 - D) with 800 by lra.
             reflexivity. }
           rewrite Hx. lra.
        -- unfold Easing_out, cubic. fold x. lra.
    + intros t' Ht'. rewrite HT. cbn [opacity App.animationStyle].
      assert (Hq : Qle_bool (t' - t0 - D) 0 = false).
      { destruct (Qle_bool (t' - t0 - D) 0) eqn:Hq; [|reflexivity].
        apply Qle_bool_iff in Hq. lra. }
      assert (Hq2 : Qle_bool 800 (t' - t0 - D) = true)
        by (apply Qle_bool_iff; lra).
      rewrite Hq, Hq2. split; lra.
  - split; apply Math_max_0.
Qed.

Lemma style_over_time_witness :
  opacity
    (style_at hook
       (run hook (mkEnv native true) (mkProps (-100) true)
          (mount hook (mkEnv native true) (mkProps (-100) true) 0 800)
          [Layout 100])
       700)
  == 511 # 512.
Proof.
  refine (Qeq_trans _ _ _
            (proj1 (proj2 (proj1 (proj2 (proj2 (proj2 (proj2
               (style_over_time (mkEnv native true) (mkProps (-100) true)
                  0 800 [Layout 100] eq_refl)))))
               0 eq_refl)) 700 _ _) _).
  - unfold Qle; simpl; lia.
  - unfold Qle; simpl; lia.
  - reflexivity.
Defined.
